(** * pwm-tool: the command-line front-end (src/main.c) and the PWM core it drives

    The definitions come first:
    - [Libc]: the C library calls main.c relies on ([strtoul], [strlen],
      [strdup], the results of [getopt_long]);
    - [Pwm]: the declarations of pwm.h that main.c uses, as an interface;
    - [Core]: the Duty Encoder and the Script Interpreter of the design;
    - [Main]: main.c itself, as a transition system over the statements of
      [main], interleaved with deliveries of SIGINT;
    - [Sim]: a stand-in for the PWM library, to run [main] on inputs.
    The facts follow, module by module, and the runs on concrete inputs. *)

From Stdlib Require Import ZArith List String Ascii Bool Lia.
Import ListNotations.
Local Open Scope Z_scope.

(* ================================================================== *)
(** ** The C library, as far as main.c uses it *)

Module Libc.

(** <errno.h> and <signal.h> on Linux. *)
Definition EINVAL : Z := 22.
Definition ENOMEM : Z := 12.
Definition SIGINT : Z := 2.

(** LP64: [unsigned int] has 32 bits, [unsigned long] 64. *)
Definition ULONG_MAX : Z := 2 ^ 64 - 1.

(** Conversion to [unsigned int] and to [unsigned long]. *)
Definition to_uint (z : Z) : Z := z mod 2 ^ 32.
Definition to_ulong (z : Z) : Z := z mod 2 ^ 64.

Definition code (c : ascii) : Z := Z.of_N (N_of_ascii c).

Definition isspace (c : ascii) : bool :=
  let n := code c in (n =? 32) || ((9 <=? n) && (n <=? 13)).

(** Value of a character as a digit, in any base up to 36. *)
Definition digit_of (c : ascii) : option Z :=
  let n := code c in
  if (48 <=? n) && (n <=? 57) then Some (n - 48)
  else if (97 <=? n) && (n <=? 122) then Some (n - 97 + 10)
  else if (65 <=? n) && (n <=? 90) then Some (n - 65 + 10)
  else None.

Definition strlen (s : string) : Z := Z.of_nat (String.length s).

(** [s[i]], for [0 <= i < strlen s]. *)
Definition char_at (s : string) (i : Z) : option ascii :=
  String.get (Z.to_nat i) s.

Fixpoint skip_space (s : string) : string :=
  match s with
  | String c r => if isspace c then skip_space r else s
  | EmptyString => s
  end.

(** The digit loop of [strtoul]: the longest run of digits below [base],
    accumulated without bound (the caller clamps). *)
Fixpoint digits (base : Z) (s : string) (acc : Z) : Z :=
  match s with
  | String c r =>
      match digit_of c with
      | Some d => if d <? base then digits base r (acc * base + d) else acc
      | None => acc
      end
  | EmptyString => acc
  end.

Definition is_x (c : ascii) : bool := (code c =? 120) || (code c =? 88).

(** [strtoul(nptr, NULL, base)]: white space, an optional sign, for base 0
    or 16 an optional "0x", for base 0 a leading "0" meaning octal; the
    value is clamped to [ULONG_MAX], and negated modulo 2^64 after '-'. *)
Definition strtoul (nptr : string) (base : Z) : Z :=
  let s := skip_space nptr in
  let '(neg, s) :=
    match s with
    | String c r =>
        if Ascii.eqb c "-" then (true, r)
        else if Ascii.eqb c "+" then (false, r)
        else (false, s)
    | EmptyString => (false, s)
    end in
  let '(base, s) :=
    match s with
    | String c (String x r) =>
        if Ascii.eqb c "0" && is_x x && ((base =? 0) || (base =? 16))
        then (16, r)
        else if base =? 0 then (if Ascii.eqb c "0" then 8 else 10, s)
        else (base, s)
    | String c EmptyString =>
        if base =? 0 then (if Ascii.eqb c "0" then 8 else 10, s)
        else (base, s)
    | EmptyString => if base =? 0 then (10, s) else (base, s)
    end in
  let v := digits base s 0 in
  if ULONG_MAX <? v then ULONG_MAX
  else if neg then to_ulong (- v) else v.

(** The decimal reading of a string, for comparison with [strtoul]: its
    leading decimal digits, and the number a list of digits denotes. *)
Definition is_decimal_digit (c : ascii) : bool :=
  (48 <=? code c) && (code c <=? 57).

Fixpoint leading_digits (s : string) : list Z :=
  match s with
  | String c r =>
      if is_decimal_digit c then (code c - 48) :: leading_digits r else []
  | EmptyString => []
  end.

Definition decimal (ds : list Z) : Z :=
  fold_left (fun n d => 10 * n + d) ds 0.

Fixpoint last_char (s : string) : option ascii :=
  match s with
  | EmptyString => None
  | String c EmptyString => Some c
  | String _ r => last_char r
  end.

(** [strdup]: a copy of the string, or NULL when the heap is exhausted;
    [heap_ok] says which requests the allocator grants. *)
Definition strdup (heap_ok : string -> bool) (s : string) : option string :=
  if heap_ok s then Some s else None.

(** One result of [getopt_long]: the returned character and [optarg]. *)
Record getopt_t := { opt : ascii; optarg : string }.

(** A string in which [strtoul] finds no number: the empty one, or one that
    starts with something other than white space, a sign or a decimal
    digit. *)
Definition no_number (s : string) : bool :=
  match s with
  | EmptyString => true
  | String c _ =>
      negb (isspace c) && negb (Ascii.eqb c "-") && negb (Ascii.eqb c "+")
      && negb (is_decimal_digit c)
  end.

End Libc.

(* ================================================================== *)
(** ** pwm.h, as main.c uses it *)

Module Pwm.

Definition pwm_status_t : Type := Z.

(** Modelled from the spec: the value of the status constant [PWM_E_OK] of
    pwm.h, which is not among the sources.  Section 6 gives exit code 0 on
    success, and main.c initialises [ret] with 0. *)
Definition PWM_E_OK : pwm_status_t := 0.

(** The only [int] object whose address main.c takes. *)
Inductive int_ptr : Type := addr_exit_flag.

Record pwm_execute_config_t := {
  script : option string;
  default_frequency_hz : Z;
  default_duration_ms : Z;
  default_duty_val : Z;
  stop_flag : int_ptr
}.

(** The rest of pwm.h is a parameter of the development: the handle type,
    three constants, and the functions of the library over the state [hw_t]
    of the hardware.  [pwm_execute] reads [*stop_flag] while it runs; its
    third argument gives the value of the k-th read. *)
Class Api := {
  pwm_t : Type;
  hw_t : Type;
  PWM_FLAG_EXPORT : Z;
  PWM_DUTY_PERCENT_FLAG : Z;
  PWM_DUTY_DEFAULT : Z;
  pwm_open : Z -> Z -> Z -> hw_t -> pwm_status_t * pwm_t * hw_t;
  pwm_execute :
    pwm_t -> pwm_execute_config_t -> (nat -> Z) -> hw_t ->
    pwm_status_t * pwm_t * hw_t;
  pwm_close : pwm_t -> hw_t -> pwm_t * hw_t;
  pwm_strstatus : pwm_status_t -> string
}.

End Pwm.

(* ================================================================== *)
(** ** The core of the design: Duty Encoder and Script Interpreter *)

Module Core.

(** Modelled from the spec: the error kinds of section 7 (pwm.c is not
    among the sources). *)
Inductive Error : Type :=
| DeviceNotFound
| PermissionDenied
| IoError (attribute : string) (os_code : Z)
| InvalidDutyRange
| UnknownCommand (letter : ascii)
| OutOfMemory.

(** Modelled from the spec: the DutyValue of section 3, a tagged [u8]. *)
Inductive DutyValue : Type :=
| Raw (v : Byte.byte)
| Percent (p : Byte.byte).

(** Modelled from the spec: the Duty Encoder of section 4.1,
    [encode(value, period) -> duty_in_period_units]. *)
Definition encode (value : DutyValue) (period : N) : Error + N :=
  match value with
  | Raw v =>
      let v := Byte.to_N v in
      if (v =? 0)%N then inl InvalidDutyRange
      else inr (period * v / 255)%N
  | Percent p =>
      let p := Byte.to_N p in
      if ((p =? 0) || (100 <? p))%N then inl InvalidDutyRange
      else inr (period * p / 100)%N
  end.

(** Modelled from the spec: the overall status of section 4.3. *)
Inductive Status : Type :=
| Success
| Interrupted
| Failure (e : Error).

Definition is_error (st : Status) : bool :=
  match st with Failure _ => true | _ => false end.

(** Modelled from the spec: the ExecutionConfig of section 3.  The
    reference to the stop flag is given by what reading it returns:
    [stop_flag k] is the value of the k-th read. *)
Record ExecutionConfig := {
  script : string;
  default_frequency_hz : N;
  default_duration_ms : N;
  default_duty_val : DutyValue;
  stop_flag : nat -> bool
}.

(** The commands of the table of section 4.3, as the interpreter logs them. *)
Inductive Command : Type :=
| SetFrequency (hz : N)
| SetDuty (duty : N)
| Enable
| Wait (ms : N).

(** Modelled from the spec: the wait tick of the [D] step (section 9 leaves
    the granularity open and suggests 10 ms). *)
Definition TICK_MS : N := 10.

Section Interpreter.

(** The Device Handle of section 4.2 is a parameter of the interpreter. *)
Variable Device : Type.
Variable period_of : Device -> N.
Variable set_frequency : N -> Device -> Error + Device.
Variable set_duty : N -> Device -> Error + Device.
Variable enable : Device -> Error + Device.

Record Interp := {
  dev : Device;
  reads : nat;           (* reads of the stop flag so far *)
  log : list Command     (* commands executed so far, oldest first *)
}.

(** Modelled from the spec: the wait of a [D] step, one read of the stop
    flag per tick; returns whether it was interrupted and the number of
    reads made. *)
Fixpoint wait (stop : nat -> bool) (ticks : nat) (k : nat) : bool * nat :=
  match ticks with
  | O => (false, k)
  | S n => if stop k then (true, S k) else wait stop n (S k)
  end.

Definition ticks_of (ms : N) : nat :=
  N.to_nat ((ms + TICK_MS - 1) / TICK_MS).

(** Modelled from the spec: one command letter of the table of
    section 4.3. *)
Definition exec (cfg : ExecutionConfig) (c : ascii) (st : Interp)
  : Status * Interp :=
  match c with
  | "f"%char =>
      let hz := default_frequency_hz cfg in
      let st' := {| dev := dev st; reads := reads st;
                    log := log st ++ [SetFrequency hz] |} in
      match set_frequency hz (dev st) with
      | inl e => (Failure e, st')
      | inr d => (Success, {| dev := d; reads := reads st; log := log st' |})
      end
  | "d"%char =>
      match encode (default_duty_val cfg) (period_of (dev st)) with
      | inl e => (Failure e, st)
      | inr duty =>
          let st' := {| dev := dev st; reads := reads st;
                        log := log st ++ [SetDuty duty] |} in
          match set_duty duty (dev st) with
          | inl e => (Failure e, st')
          | inr d =>
              (Success, {| dev := d; reads := reads st; log := log st' |})
          end
      end
  | "u"%char =>
      let st' := {| dev := dev st; reads := reads st;
                    log := log st ++ [Enable] |} in
      match enable (dev st) with
      | inl e => (Failure e, st')
      | inr d => (Success, {| dev := d; reads := reads st; log := log st' |})
      end
  | "D"%char =>
      let ms := default_duration_ms cfg in
      let '(stopped, k) := wait (stop_flag cfg) (ticks_of ms) (reads st) in
      (if stopped then Interrupted else Success,
       {| dev := dev st; reads := k; log := log st ++ [Wait ms] |})
  | "k"%char => (Success, st)
  | _ => (Failure (UnknownCommand c), st)
  end.

(** Modelled from the spec: the Script Interpreter of section 4.3, one
    command letter per step, left to right.  Every step first reads the
    stop flag and then looks at the next letter, so that a flag set before
    the first step interrupts any script (section 8), the empty one too. *)
Fixpoint run (cfg : ExecutionConfig) (script : string) (st : Interp)
  : Status * Interp :=
  let st' := {| dev := dev st; reads := S (reads st); log := log st |} in
  if stop_flag cfg (reads st) then (Interrupted, st')
  else
    match script with
    | EmptyString => (Success, st')
    | String c rest =>
        match exec cfg c st' with
        | (Success, st'') => run cfg rest st''
        | (status, st'') => (status, st'')
        end
    end.

Definition execute (cfg : ExecutionConfig) (d : Device) : Status * Interp :=
  run cfg (script cfg) {| dev := d; reads := 0; log := [] |}.

End Interpreter.

End Core.

(* ================================================================== *)
(** ** src/main.c *)

Module Main.
Import Libc Pwm.

Definition DEFAULT_PWM_CHIP : Z := 0.
Definition DEFAULT_PWM_CHANNEL : Z := 0.
Definition DEFAULT_PWM_FREQUENCY_HZ : Z := 1000.
Definition DEFAULT_PWM_DURATION_MS : Z := 250.

Record config_t := {
  chip : Z;
  channel : Z;
  frequency_hz : Z;
  duration_ms : Z;
  duty_val : Z;
  keep_enabled : Z;
  script : option string        (* NULL until --script is seen *)
}.

Definition set_chip (c : config_t) (v : Z) : config_t :=
  {| chip := v; channel := channel c; frequency_hz := frequency_hz c;
     duration_ms := duration_ms c; duty_val := duty_val c;
     keep_enabled := keep_enabled c; script := script c |}.
Definition set_channel (c : config_t) (v : Z) : config_t :=
  {| chip := chip c; channel := v; frequency_hz := frequency_hz c;
     duration_ms := duration_ms c; duty_val := duty_val c;
     keep_enabled := keep_enabled c; script := script c |}.
Definition set_frequency_hz (c : config_t) (v : Z) : config_t :=
  {| chip := chip c; channel := channel c; frequency_hz := v;
     duration_ms := duration_ms c; duty_val := duty_val c;
     keep_enabled := keep_enabled c; script := script c |}.
Definition set_duration_ms (c : config_t) (v : Z) : config_t :=
  {| chip := chip c; channel := channel c; frequency_hz := frequency_hz c;
     duration_ms := v; duty_val := duty_val c;
     keep_enabled := keep_enabled c; script := script c |}.
Definition set_duty_val (c : config_t) (v : Z) : config_t :=
  {| chip := chip c; channel := channel c; frequency_hz := frequency_hz c;
     duration_ms := duration_ms c; duty_val := v;
     keep_enabled := keep_enabled c; script := script c |}.
Definition set_keep_enabled (c : config_t) (v : Z) : config_t :=
  {| chip := chip c; channel := channel c; frequency_hz := frequency_hz c;
     duration_ms := duration_ms c; duty_val := duty_val c;
     keep_enabled := v; script := script c |}.
Definition set_script (c : config_t) (v : option string) : config_t :=
  {| chip := chip c; channel := channel c; frequency_hz := frequency_hz c;
     duration_ms := duration_ms c; duty_val := duty_val c;
     keep_enabled := keep_enabled c; script := v |}.

(** How a C function leaves: by [return], or by calling [exit]. *)
Inductive flow : Type :=
| Return (r : Z)
| Exit (code : Z).

Section Program.

Context {api : Api}.

(** What one run is given: the results [getopt_long] yields on the argument
    vector (up to EOF), the allocator, and the hardware at start. *)
Variable argv : list getopt_t.
Variable heap_ok : string -> bool.
Variable hw0 : hw_t.

(** What the program does to the outside, in order; calls into the PWM
    library carry their result. *)
Inductive event : Type :=
| Ev_usage                                  (* display_usage() *)
| Ev_version                                (* PWM_VERSION on stdout *)
| Ev_out_of_memory                          (* "ERROR: Out of memory" *)
| Ev_cant_open (channel chip : Z) (msg : string)
| Ev_atexit                                 (* atexit(cleanup) *)
| Ev_signal (signum : Z)                    (* signal(signum, handle_signal) *)
| Ev_pwm_open (chip channel flags : Z) (ret : pwm_status_t)
| Ev_pwm_execute (pwm : pwm_t) (cfg : pwm_execute_config_t)
                 (ret : pwm_status_t)
| Ev_pwm_close (pwm : pwm_t)
| Ev_free (p : string).                     (* free(config.script) *)

(** The static initialiser of [config]. *)
Definition config_init : config_t :=
  {| chip := DEFAULT_PWM_CHIP;
     channel := DEFAULT_PWM_CHANNEL;
     frequency_hz := DEFAULT_PWM_FREQUENCY_HZ;
     duration_ms := DEFAULT_PWM_DURATION_MS;
     duty_val := to_uint PWM_DUTY_DEFAULT;
     keep_enabled := 0;
     script := None |}.

(** [parse_cli_args]: the loop over the results of [getopt_long], threading
    the global [config]; returns how the function left, the configuration
    and what it printed. *)
Fixpoint parse_cli_args (argv : list getopt_t) (config : config_t)
  : flow * config_t * list event :=
  match argv with
  | [] => (Return 0, config, [])
  | o :: argv' =>
      match opt o with
      | "?"%char => (Return (- EINVAL), config, [])
      | "h"%char => (Exit 0, config, [Ev_usage])
      | "p"%char =>
          parse_cli_args argv'
            (set_chip config (to_uint (strtoul (optarg o) 0)))
      | "c"%char =>
          parse_cli_args argv'
            (set_channel config (to_uint (strtoul (optarg o) 0)))
      | "f"%char =>
          parse_cli_args argv'
            (set_frequency_hz config (to_uint (strtoul (optarg o) 0)))
      | "d"%char =>
          parse_cli_args argv'
            (set_duration_ms config (to_uint (strtoul (optarg o) 0)))
      | "D"%char =>
          let len := strlen (optarg o) in
          if (0 <? len)
             && match char_at (optarg o) (len - 1) with
                | Some c => Ascii.eqb c "%"
                | None => false
                end
          then
            let percent := to_uint (strtoul (optarg o) 10) in
            parse_cli_args argv'
              (set_duty_val config
                 (to_uint (Z.lor PWM_DUTY_PERCENT_FLAG percent)))
          else
            parse_cli_args argv'
              (set_duty_val config (to_uint (strtoul (optarg o) 0)))
      | "s"%char =>
          let config := set_script config (strdup heap_ok (optarg o)) in
          match script config with
          | None => (Exit (- ENOMEM), config, [Ev_out_of_memory])
          | Some _ => parse_cli_args argv' config
          end
      | "k"%char => parse_cli_args argv' (set_keep_enabled config 1)
      | "V"%char => (Exit 0, config, [Ev_version])
      | _ => parse_cli_args argv' config
      end
  end.

(** The statements of [main], with the locals that are live at each. *)
Inductive label : Type :=
| at_parse                               (* line 292 *)
| at_atexit                              (* line 297 *)
| at_signal                              (* line 299 *)
| at_open                                (* line 301 *)
| at_config (pwm : pwm_t)                (* lines 309-322 *)
| at_execute (pwm : pwm_t) (pwm_execute_config : pwm_execute_config_t)
                                         (* line 324 *)
| at_close (pwm : pwm_t)                 (* line 326 *)
| at_exit                                (* line 328 *)
| halted (code : Z).                     (* the process is gone *)

Record state := {
  pc : label;
  exit_flag : Z;                 (* static int exit_flag *)
  config : config_t;             (* static config_t config *)
  ret : pwm_status_t;            (* the local of main *)
  sigint_handler : bool;         (* handle_signal is installed for SIGINT *)
  atexit_cleanup : bool;         (* cleanup is registered *)
  hw : hw_t;
  out : list event
}.

Definition goto (l : label) (s : state) : state :=
  {| pc := l; exit_flag := exit_flag s; config := config s; ret := ret s;
     sigint_handler := sigint_handler s; atexit_cleanup := atexit_cleanup s;
     hw := hw s; out := out s |}.
Definition emit (evs : list event) (s : state) : state :=
  {| pc := pc s; exit_flag := exit_flag s; config := config s; ret := ret s;
     sigint_handler := sigint_handler s; atexit_cleanup := atexit_cleanup s;
     hw := hw s; out := out s ++ evs |}.
Definition set_exit_flag (v : Z) (s : state) : state :=
  {| pc := pc s; exit_flag := v; config := config s; ret := ret s;
     sigint_handler := sigint_handler s; atexit_cleanup := atexit_cleanup s;
     hw := hw s; out := out s |}.
Definition set_config (c : config_t) (s : state) : state :=
  {| pc := pc s; exit_flag := exit_flag s; config := c; ret := ret s;
     sigint_handler := sigint_handler s; atexit_cleanup := atexit_cleanup s;
     hw := hw s; out := out s |}.
Definition set_ret (r : pwm_status_t) (s : state) : state :=
  {| pc := pc s; exit_flag := exit_flag s; config := config s; ret := r;
     sigint_handler := sigint_handler s; atexit_cleanup := atexit_cleanup s;
     hw := hw s; out := out s |}.
Definition set_sigint_handler (s : state) : state :=
  {| pc := pc s; exit_flag := exit_flag s; config := config s; ret := ret s;
     sigint_handler := true; atexit_cleanup := atexit_cleanup s;
     hw := hw s; out := out s |}.
Definition set_atexit_cleanup (s : state) : state :=
  {| pc := pc s; exit_flag := exit_flag s; config := config s; ret := ret s;
     sigint_handler := sigint_handler s; atexit_cleanup := true;
     hw := hw s; out := out s |}.
Definition set_hw (h : hw_t) (s : state) : state :=
  {| pc := pc s; exit_flag := exit_flag s; config := config s; ret := ret s;
     sigint_handler := sigint_handler s; atexit_cleanup := atexit_cleanup s;
     hw := h; out := out s |}.

(** Process start: [exit_flag = 0], [config] as initialised, [ret = 0]. *)
Definition start : state :=
  {| pc := at_parse; exit_flag := 0; config := config_init; ret := 0;
     sigint_handler := false; atexit_cleanup := false;
     hw := hw0; out := [] |}.

(** [display_usage]: the usage text goes to stdout. *)
Definition display_usage (s : state) : state := emit [Ev_usage] s.

(** [handle_signal], on the one variable it writes: the new value of
    [exit_flag]. *)
Definition handle_signal (signal : Z) (exit_flag : Z) : Z := 1.

(** [cleanup]. *)
Definition cleanup (s : state) : state :=
  match script (config s) with
  | Some p => emit [Ev_free p] s
  | None => s
  end.

(** [exit(code)], and [return code] from [main]: the registered handlers
    run, then the process ends with that code. *)
Definition exit (code : Z) (s : state) : state :=
  goto (halted code) (if atexit_cleanup s then cleanup s else s).

(** Lines 309-322: the configuration handed to the interpreter. *)
Definition make_execute_config (config : config_t) : pwm_execute_config_t :=
  let pwm_execute_config :=
    {| Pwm.script := script config;
       default_frequency_hz := frequency_hz config;
       default_duration_ms := duration_ms config;
       default_duty_val := duty_val config;
       stop_flag := addr_exit_flag |} in
  match script config with
  | None =>
      {| Pwm.script :=
           if keep_enabled config =? 0 then Some "fdu"%string
           else Some "fduk"%string;
         default_frequency_hz := default_frequency_hz pwm_execute_config;
         default_duration_ms := default_duration_ms pwm_execute_config;
         default_duty_val := default_duty_val pwm_execute_config;
         stop_flag := stop_flag pwm_execute_config |}
  | Some _ => pwm_execute_config
  end.

(** [exit_flag] after [n] deliveries of SIGINT. *)
Definition deliver (n : nat) (flag : Z) : Z :=
  Nat.iter n (handle_signal SIGINT) flag.

(** While [pwm_execute] runs, SIGINT may arrive: [during] lists, for each
    delivery, the index of the first read of the flag that comes after it.
    [read_flag] is the value the k-th read of [*p] returns, [flag] being
    the value of [exit_flag] when the call starts. *)
Definition arrived (during : list nat) (k : nat) : nat :=
  List.length (filter (fun j => (j <=? k)%nat) during).

Definition read_flag (p : int_ptr) (during : list nat) (flag : Z) (k : nat)
  : Z :=
  match p with
  | addr_exit_flag => deliver (arrived during k) flag
  end.

(** One statement of [main]. *)
Definition main_step (during : list nat) (s : state) : state :=
  match pc s with
  | at_parse =>
      let '(r, c, evs) := parse_cli_args argv (config s) in
      let s := emit evs (set_config c s) in
      match r with
      | Exit code => exit code s
      | Return r =>
          if r =? 0 then goto at_atexit s
          else exit EINVAL (display_usage s)
      end
  | at_atexit => goto at_signal (emit [Ev_atexit] (set_atexit_cleanup s))
  | at_signal => goto at_open (emit [Ev_signal SIGINT] (set_sigint_handler s))
  | at_open =>
      let '(r, pwm, h) :=
        pwm_open (chip (config s)) (channel (config s)) PWM_FLAG_EXPORT
          (hw s) in
      let s :=
        emit [Ev_pwm_open (chip (config s)) (channel (config s))
                PWM_FLAG_EXPORT r]
          (set_hw h (set_ret r s)) in
      if ret s =? PWM_E_OK then goto (at_config pwm) s
      else
        exit (ret s)
          (emit [Ev_cant_open (channel (config s)) (chip (config s))
                   (pwm_strstatus (ret s))] s)
  | at_config pwm =>
      goto (at_execute pwm (make_execute_config (config s))) s
  | at_execute pwm cfg =>
      let '(r, pwm', h) :=
        pwm_execute pwm cfg
          (read_flag (stop_flag cfg) during (exit_flag s)) (hw s) in
      goto (at_close pwm')
        (emit [Ev_pwm_execute pwm cfg r]
           (set_hw h
              (set_ret r
                 (set_exit_flag
                    (deliver (List.length during) (exit_flag s)) s))))
  | at_close pwm =>
      let '(_, h) := pwm_close pwm (hw s) in
      goto at_exit (emit [Ev_pwm_close pwm] (set_hw h s))
  | at_exit => exit (ret s) s
  | halted _ => s
  end.

Definition running (s : state) : bool :=
  match pc s with halted _ => false | _ => true end.

(** A run interleaves the statements of [main] with deliveries of SIGINT.
    The schedule of a run says which comes next: the next statement (with
    the arrivals during it, which only [pwm_execute] observes), or a
    delivery of SIGINT between two statements.  Before line 299 SIGINT has
    its default disposition, which is not part of the program: a delivery
    reaches [handle_signal] only once it is installed. *)
Inductive action : Type :=
| Statement (during : list nat)
| Sigint.

Definition step (a : action) (s : state) : state :=
  match a with
  | Statement during => main_step during s
  | Sigint =>
      if running s && sigint_handler s
      then set_exit_flag (handle_signal SIGINT (exit_flag s)) s
      else s
  end.

Definition run_from (s : state) (sched : list action) : state :=
  fold_left (fun s a => step a s) sched s.

Definition run (sched : list action) : state := run_from start sched.

(** The states a run goes through, the first one included. *)
Fixpoint states_from (s : state) (sched : list action) : list state :=
  s :: match sched with
       | [] => []
       | a :: sched' => states_from (step a s) sched'
       end.

(** The calls into the PWM library among the events. *)
Definition is_pwm_call (e : event) : bool :=
  match e with
  | Ev_pwm_open _ _ _ _ | Ev_pwm_execute _ _ _ | Ev_pwm_close _ => true
  | _ => false
  end.

Definition pwm_calls (s : state) : list event := filter is_pwm_call (out s).

(** *** What a run has done, by the statement it stands at *)

(** The outcome of [parse_cli_args] on the argument vector of the run. *)
Definition parsed_flow : flow := fst (fst (parse_cli_args argv config_init)).
Definition parsed_config : config_t :=
  snd (fst (parse_cli_args argv config_init)).
Definition parsed_out : list event := snd (parse_cli_args argv config_init).

(** The call of line 301 and its outcome. *)
Definition opened : pwm_status_t * pwm_t * hw_t :=
  pwm_open (chip parsed_config) (channel parsed_config) PWM_FLAG_EXPORT hw0.

Definition call_open (r : pwm_status_t) : event :=
  Ev_pwm_open (chip parsed_config) (channel parsed_config) PWM_FLAG_EXPORT r.

Definition call_execute (pwm : pwm_t) (r : pwm_status_t) : event :=
  Ev_pwm_execute pwm (make_execute_config parsed_config) r.

(** [pwm_open] succeeded with handle [pwm0], and [pwm_execute] on it
    answered [r], leaving the handle [pwm1] and the hardware [h1]. *)
Definition executed (pwm0 : pwm_t) (r : pwm_status_t) (pwm1 : pwm_t)
    (h1 : hw_t) : Prop :=
  exists (h0 : hw_t) (during : list nat) (flag : Z),
    opened = (PWM_E_OK, pwm0, h0) /\
    pwm_execute pwm0 (make_execute_config parsed_config)
      (read_flag addr_exit_flag during flag) h0 = (r, pwm1, h1).

Definition invariant (s : state) : Prop :=
  match pc s with
  | at_parse => s = start
  | at_atexit | at_signal | at_open =>
      parsed_flow = Return 0 /\ config s = parsed_config /\
      hw s = hw0 /\ pwm_calls s = []
  | at_config pwm =>
      parsed_flow = Return 0 /\ config s = parsed_config /\
      opened = (PWM_E_OK, pwm, hw s) /\
      pwm_calls s = [call_open PWM_E_OK]
  | at_execute pwm cfg =>
      parsed_flow = Return 0 /\ config s = parsed_config /\
      opened = (PWM_E_OK, pwm, hw s) /\
      cfg = make_execute_config parsed_config /\
      pwm_calls s = [call_open PWM_E_OK]
  | at_close pwm =>
      parsed_flow = Return 0 /\ config s = parsed_config /\
      exists pwm0,
        executed pwm0 (ret s) pwm (hw s) /\
        pwm_calls s = [call_open PWM_E_OK; call_execute pwm0 (ret s)]
  | at_exit =>
      parsed_flow = Return 0 /\ config s = parsed_config /\
      exists pwm0 pwm1 h1,
        executed pwm0 (ret s) pwm1 h1 /\
        pwm_calls s =
          [call_open PWM_E_OK; call_execute pwm0 (ret s); Ev_pwm_close pwm1]
  | halted code =>
      (parsed_flow <> Return 0 /\
       pwm_calls s = [] /\
       match parsed_flow with
       | Exit c => code = c
       | Return _ => code = EINVAL /\ In Ev_usage (out s)
       end)
      \/
      (parsed_flow = Return 0 /\ config s = parsed_config /\
       exists r pwm h,
         opened = (r, pwm, h) /\ r <> PWM_E_OK /\ code = r /\
         pwm_calls s = [call_open r])
      \/
      (parsed_flow = Return 0 /\ config s = parsed_config /\
       exists pwm0 pwm1 h1,
         executed pwm0 code pwm1 h1 /\
         pwm_calls s =
           [call_open PWM_E_OK; call_execute pwm0 code; Ev_pwm_close pwm1])
  end.

(** The four ways the loop of [parse_cli_args] ends before EOF. *)
Inductive stops (o : getopt_t) (c : config_t)
  : flow * config_t * list event -> Prop :=
| stops_invalid :
    opt o = "?"%char -> stops o c (Return (- EINVAL), c, [])
| stops_help :
    opt o = "h"%char -> stops o c (Exit 0, c, [Ev_usage])
| stops_version :
    opt o = "V"%char -> stops o c (Exit 0, c, [Ev_version])
| stops_no_memory :
    opt o = "s"%char -> heap_ok (optarg o) = false ->
    stops o c (Exit (- ENOMEM), set_script c None, [Ev_out_of_memory]).

(** An option that lets the loop of [parse_cli_args] go on to the next. *)
Definition passes (o : getopt_t) : bool :=
  match opt o with
  | "?"%char | "h"%char | "V"%char => false
  | "s"%char => heap_ok (optarg o)
  | _ => true
  end.

(** The statements [main] still has to run, at most. *)
Definition remaining (l : label) : nat :=
  match l with
  | at_parse => 8
  | at_atexit => 7
  | at_signal => 6
  | at_open => 5
  | at_config _ => 4
  | at_execute _ _ => 3
  | at_close _ => 2
  | at_exit => 1
  | halted _ => 0
  end.

(** A state without the [keep_enabled] field of its configuration. *)
Definition forget_keep_enabled (s : state) : state :=
  set_config (set_keep_enabled (config s) 0) s.

(** The run opens, executes, closes and exits with the status of
    [pwm_execute]. *)
Definition performs_sequence : Prop :=
  forall (sched : list action) (code : Z),
    pc (run sched) = halted code ->
    exists pwm0 pwm1 r,
      pwm_calls (run sched) =
        [call_open PWM_E_OK; call_execute pwm0 r; Ev_pwm_close pwm1] /\
      code = r.

(** The run prints the usage text, exits with EINVAL and never calls the
    PWM library. *)
Definition rejects_arguments : Prop :=
  forall (sched : list action) (code : Z),
    pc (run sched) = halted code ->
    code = EINVAL /\ In Ev_usage (out (run sched)) /\
    pwm_calls (run sched) = [].

(** [pwm_close] is told [keep_enabled]: the flag can be read off the
    call, by [flag_of]. *)
Definition close_receives_keep_enabled (flag_of : event -> Z) : Prop :=
  forall (sched : list action) (pwm : pwm_t),
    In (Ev_pwm_close pwm) (out (run sched)) ->
    flag_of (Ev_pwm_close pwm) = keep_enabled (config (run sched)).

(** What the user supplied: the argument of the last [--script], if any,
    and whether [--keep-enabled] was given. *)
Definition supplied_script (argv : list getopt_t) : option string :=
  fold_left
    (fun found o => if Ascii.eqb (opt o) "s" then Some (optarg o) else found)
    argv None.

Definition keep_enabled_given (argv : list getopt_t) : bool :=
  existsb (fun o => Ascii.eqb (opt o) "k") argv.

(** The duty value a [--duty] argument stands for: the percent flag or'd
    with the decimal reading when the last character is '%', the reading
    in base 0 otherwise. *)
Definition ends_with_percent (arg : string) : bool :=
  match last_char arg with
  | Some c => Ascii.eqb c "%"
  | None => false
  end.

Definition duty_of_argument (arg : string) : Z :=
  if ends_with_percent arg
  then to_uint (Z.lor PWM_DUTY_PERCENT_FLAG (to_uint (strtoul arg 10)))
  else to_uint (strtoul arg 0).

(** *** The rest of [parse_cli_args] and of [main] *)

(** The cases of the switch that reach [break]: what an option that passes
    does to [config]. *)
Definition update (o : getopt_t) (config : config_t) : config_t :=
  if Ascii.eqb (opt o) "p"
  then set_chip config (to_uint (strtoul (optarg o) 0))
  else if Ascii.eqb (opt o) "c"
  then set_channel config (to_uint (strtoul (optarg o) 0))
  else if Ascii.eqb (opt o) "f"
  then set_frequency_hz config (to_uint (strtoul (optarg o) 0))
  else if Ascii.eqb (opt o) "d"
  then set_duration_ms config (to_uint (strtoul (optarg o) 0))
  else if Ascii.eqb (opt o) "D"
  then set_duty_val config (duty_of_argument (optarg o))
  else if Ascii.eqb (opt o) "s"
  then set_script config (Some (optarg o))
  else if Ascii.eqb (opt o) "k"
  then set_keep_enabled config 1
  else config.

(** The argument of the last occurrence of an option, if it occurs. *)
Definition last_argument (ch : ascii) (argv : list getopt_t) : option string :=
  fold_left
    (fun found o => if Ascii.eqb (opt o) ch then Some (optarg o) else found)
    argv None.

Definition number_or (default : Z) (arg : option string) : Z :=
  match arg with
  | Some a => to_uint (strtoul a 0)
  | None => default
  end.

(** The configuration a command line stands for: every setting from the
    last occurrence of its option, or its default. *)
Definition config_of (argv : list getopt_t) : config_t :=
  {| chip := number_or DEFAULT_PWM_CHIP (last_argument "p" argv);
     channel := number_or DEFAULT_PWM_CHANNEL (last_argument "c" argv);
     frequency_hz :=
       number_or DEFAULT_PWM_FREQUENCY_HZ (last_argument "f" argv);
     duration_ms :=
       number_or DEFAULT_PWM_DURATION_MS (last_argument "d" argv);
     duty_val :=
       match last_argument "D" argv with
       | Some a => duty_of_argument a
       | None => to_uint PWM_DUTY_DEFAULT
       end;
     keep_enabled := if keep_enabled_given argv then 1 else 0;
     script := supplied_script argv |}.

(** What [cleanup] frees. *)
Definition frees (c : config_t) : list event :=
  match script c with
  | Some p => [Ev_free p]
  | None => []
  end.

Definition is_free (e : event) : bool :=
  match e with Ev_free _ => true | _ => false end.

(** The message of lines 303-305. *)
Definition cant_open (r : pwm_status_t) : event :=
  Ev_cant_open (channel parsed_config) (chip parsed_config) (pwm_strstatus r).

(** Everything a run has put out, and what it has registered, by the
    statement it stands at. *)
Definition trace_invariant (s : state) : Prop :=
  match pc s with
  | at_parse => s = start
  | at_atexit =>
      out s = [] /\ atexit_cleanup s = false /\ sigint_handler s = false
  | at_signal =>
      out s = [Ev_atexit] /\
      atexit_cleanup s = true /\ sigint_handler s = false
  | at_open =>
      out s = [Ev_atexit; Ev_signal SIGINT] /\
      atexit_cleanup s = true /\ sigint_handler s = true
  | at_config _ | at_execute _ _ =>
      out s = [Ev_atexit; Ev_signal SIGINT; call_open PWM_E_OK] /\
      atexit_cleanup s = true /\ sigint_handler s = true
  | at_close _ =>
      (exists pwm0,
         out s = [Ev_atexit; Ev_signal SIGINT; call_open PWM_E_OK;
                  call_execute pwm0 (ret s)]) /\
      atexit_cleanup s = true /\ sigint_handler s = true
  | at_exit =>
      (exists pwm0 pwm1,
         out s = [Ev_atexit; Ev_signal SIGINT; call_open PWM_E_OK;
                  call_execute pwm0 (ret s); Ev_pwm_close pwm1]) /\
      atexit_cleanup s = true /\ sigint_handler s = true
  | halted code =>
      (parsed_flow <> Return 0 /\
       out s = parsed_out ++ match parsed_flow with
                             | Return _ => [Ev_usage]
                             | Exit _ => []
                             end /\
       atexit_cleanup s = false /\ sigint_handler s = false)
      \/
      (parsed_flow = Return 0 /\
       code <> PWM_E_OK /\ code = fst (fst opened) /\
       out s = [Ev_atexit; Ev_signal SIGINT; call_open code; cant_open code]
               ++ frees parsed_config /\
       atexit_cleanup s = true /\ sigint_handler s = true)
      \/
      (parsed_flow = Return 0 /\ fst (fst opened) = PWM_E_OK /\
       (exists pwm0 pwm1,
          out s = [Ev_atexit; Ev_signal SIGINT; call_open PWM_E_OK;
                   call_execute pwm0 code; Ev_pwm_close pwm1]
                  ++ frees parsed_config) /\
       atexit_cleanup s = true /\ sigint_handler s = true)
  end.

End Program.

End Main.

(* ================================================================== *)
(** ** A stand-in for the PWM library *)

Module Sim.
Import Pwm.

(** A library that answers [open_ret] to [pwm_open] and [exec_ret] to
    [pwm_execute], hands out the pair (chip, channel) as the handle, and
    keeps a journal of what it was asked as the state of the hardware. *)
Definition api (open_ret exec_ret : pwm_status_t) : Api :=
  {| pwm_t := Z * Z;
     hw_t := list string;
     PWM_FLAG_EXPORT := 1;
     PWM_DUTY_PERCENT_FLAG := 2 ^ 31;
     PWM_DUTY_DEFAULT := Z.lor (2 ^ 31) 50;
     pwm_open := fun chip channel _ h =>
       (open_ret, (chip, channel), h ++ ["export"%string]);
     pwm_execute := fun p cfg _ h =>
       (exec_ret, p,
        h ++ [match script cfg with Some x => x | None => EmptyString end]);
     pwm_close := fun p h => (p, h ++ ["close"%string]);
     pwm_strstatus := fun _ => "status"%string |}.

(** An option with its argument, and an option that takes none. *)
Definition o (c : ascii) (arg : string) : Libc.getopt_t :=
  {| Libc.opt := c; Libc.optarg := arg |}.

Definition flag (c : ascii) : Libc.getopt_t := o c EmptyString.

Definition all_statements : list Main.action :=
  repeat (Main.Statement []) 8.

Definition heap (s : string) : bool := true.

(** The configuration [main] builds from the default settings. *)
Definition config_for (script : string) (duty : Z) : pwm_execute_config_t :=
  {| script := Some script;
     default_frequency_hz := 1000;
     default_duration_ms := 250;
     default_duty_val := duty;
     stop_flag := addr_exit_flag |}.

(** A device for the interpreter: a journal of the attributes written. *)
Definition journal : Type := list string.

Definition write (attribute : string) (value : N) (d : journal)
  : Core.Error + journal :=
  inr (d ++ [attribute]).

Definition core_config (script : string) (stop : nat -> bool)
  : Core.ExecutionConfig :=
  {| Core.script := script;
     Core.default_frequency_hz := 1000;
     Core.default_duration_ms := 250;
     Core.default_duty_val := Core.Percent Byte.x32;
     Core.stop_flag := stop |}.

Definition stopped_config : Core.ExecutionConfig :=
  core_config "fdu" (fun _ => true).

(** The interpreter on the journal, the period being 1 ms. *)
Definition interpret (cfg : Core.ExecutionConfig)
  : Core.Status * Core.Interp journal :=
  Core.execute journal (fun _ => 1000000%N) (write "period")
    (write "duty_cycle") (write "enable" 1) cfg [].

End Sim.

(* ================================================================== *)
(** ** Facts about the C library model *)

Module LibcFacts.
Import Libc.



(** In base 10 the digit loop takes exactly the decimal digits. *)
Lemma digit_of_decimal (c : ascii) :
  match digit_of c with
  | Some d =>
      if d <? 10 then is_decimal_digit c = true /\ d = code c - 48
      else is_decimal_digit c = false
  | None => is_decimal_digit c = false
  end.
Proof.
  unfold digit_of, is_decimal_digit. generalize (code c). intros n.
  repeat (match goal with
          | |- context [?a <=? ?b] => destruct (Z.leb_spec a b)
          | |- context [?a <? ?b] => destruct (Z.ltb_spec a b)
          end; cbn [andb]);
    try lia; auto.
Qed.

Lemma digits_decimal (s : string) (acc : Z) :
  digits 10 s acc = fold_left (fun n d => 10 * n + d) (leading_digits s) acc.
Proof.
  revert acc. induction s as [ | c r IH]; intros acc.
  - reflexivity.
  - cbn [digits leading_digits].
    pose proof (digit_of_decimal c) as H.
    destruct (digit_of c) as [d | ].
    + destruct (d <? 10).
      * destruct H as [-> ->]. cbn [fold_left]. rewrite IH.
        now rewrite (Z.mul_comm acc 10).
      * rewrite H. reflexivity.
    + rewrite H. reflexivity.
Qed.






Lemma get_last (c : ascii) (r : string) :
  String.get (String.length r) (String c r) = last_char (String c r).
Proof.
  revert c. induction r as [ | x r IH]; intros c.
  - reflexivity.
  - change (String.get (String.length (String x r)) (String c (String x r)))
      with (String.get (String.length r) (String x r)).
    rewrite IH. reflexivity.
Qed.

(** [s[strlen(s) - 1]] is the last character of a non-empty string. *)
Lemma char_at_last (s : string) :
  s <> EmptyString -> char_at s (strlen s - 1) = last_char s.
Proof.
  destruct s as [ | c r]; [congruence | intros _].
  unfold char_at, strlen. cbn [String.length].
  replace (Z.to_nat (Z.of_nat (S (String.length r)) - 1))
    with (String.length r) by lia.
  apply get_last.
Qed.

End LibcFacts.

(* ================================================================== *)
(** ** Facts about the core *)

Module CoreFacts.
Import Core.

Lemma byte_zero (b : Byte.byte) : Byte.to_N b = 0%N -> b = Byte.x00.
Proof.
  intros H.
  pose proof (Byte.of_to_N b) as E.
  rewrite H in E. simpl in E. congruence.
Qed.

Lemma encode_error_kind (value : DutyValue) (period : N) (e : Error) :
  encode value period = inl e -> e = InvalidDutyRange.
Proof.
  destruct value as [v | p]; unfold encode; cbv zeta.
  - destruct (Byte.to_N v =? 0)%N; congruence.
  - destruct ((Byte.to_N p =? 0) || (100 <? Byte.to_N p))%N; congruence.
Qed.

(** C6: for every period, the encoder returns [period * p / 100] for a
    percentage [p] in 1..=100 and [period * v / 255] for a raw value [v] in
    1..=255, the division truncating; being a function of its two
    arguments, it has no effect besides its result. *)
Theorem encode_formula (period : N) :
  (forall p : Byte.byte,
     (1 <= Byte.to_N p <= 100)%N ->
     encode (Percent p) period = inr (period * Byte.to_N p / 100)%N) /\
  (forall v : Byte.byte,
     (1 <= Byte.to_N v <= 255)%N ->
     encode (Raw v) period = inr (period * Byte.to_N v / 255)%N).
Proof.
  split.
  - intros p [Hlo Hhi]. unfold encode; cbv zeta.
    replace (Byte.to_N p =? 0)%N with false
      by (symmetry; apply N.eqb_neq; lia).
    replace (100 <? Byte.to_N p)%N with false
      by (symmetry; apply N.ltb_ge; lia).
    reflexivity.
  - intros v [Hlo _]. unfold encode; cbv zeta.
    replace (Byte.to_N v =? 0)%N with false
      by (symmetry; apply N.eqb_neq; lia).
    reflexivity.
Qed.

Lemma encode_formula_witness :
  encode (Percent Byte.x32) 20000 = inr 10000%N /\
  encode (Raw Byte.xff) 20000 = inr 20000%N.
Proof.
  split.
  - apply (proj1 (encode_formula 20000) Byte.x32). vm_compute.
    split; discriminate.
  - apply (proj2 (encode_formula 20000) Byte.xff). vm_compute.
    split; discriminate.
Defined.

(** C7: the encoder fails exactly on [Raw 0], [Percent 0] and [Percent p]
    with [p > 100]; the failure is [InvalidDutyRange], and a failing call
    yields no duty at all (nothing is clamped, nothing is taken as off). *)
Theorem encode_rejects (value : DutyValue) (period : N) :
  (encode value period = inl InvalidDutyRange <->
   value = Raw Byte.x00 \/ value = Percent Byte.x00 \/
   exists p, value = Percent p /\ (100 < Byte.to_N p)%N) /\
  (encode value period = inl InvalidDutyRange \/
   exists duty, encode value period = inr duty).
Proof.
  split.
  - split.
    + destruct value as [v | p]; unfold encode; cbv zeta.
      * destruct (N.eqb_spec (Byte.to_N v) 0) as [E | E]; [ | discriminate ].
        intros _. left. f_equal. now apply byte_zero.
      * destruct (N.eqb_spec (Byte.to_N p) 0) as [E | E]; simpl.
        -- intros _. right; left. f_equal. now apply byte_zero.
        -- destruct (N.ltb_spec 100 (Byte.to_N p)) as [L | L];
             [ | discriminate ].
           intros _. right; right. now exists p.
    + intros [-> | [-> | [p [-> L]]]]; try reflexivity.
      unfold encode; cbv zeta.
      apply N.ltb_lt in L. rewrite L, orb_true_r. reflexivity.
  - destruct (encode value period) as [e | duty] eqn:E.
    + left. f_equal. now apply encode_error_kind in E.
    + right. now exists duty.
Qed.

Lemma encode_rejects_witness :
  encode (Percent Byte.x65) 20000 = inl InvalidDutyRange.
Proof.
  apply (proj1 (encode_rejects (Percent Byte.x65) 20000)).
  right; right. exists Byte.x65. split; reflexivity.
Defined.

(** The scripts of section 8 on the journal: "fdu" sets the frequency and
    the duty and enables; "fdx" stops at the unknown letter with the first
    two applied; a flag raised at the fifth read ends a wait of 25 ticks
    at its third. *)
Example interpret_fdu :
  Sim.interpret (Sim.core_config "fdu" (fun _ => false)) =
  (Success,
   {| dev := ["period"; "duty_cycle"; "enable"]%string;
      reads := 4;
      log := [SetFrequency 1000; SetDuty 500000; Enable] |}).
Proof. reflexivity. Qed.

Example interpret_fdx :
  Sim.interpret (Sim.core_config "fdx" (fun _ => false)) =
  (Failure (UnknownCommand "x"),
   {| dev := ["period"; "duty_cycle"]%string;
      reads := 3;
      log := [SetFrequency 1000; SetDuty 500000] |}).
Proof. reflexivity. Qed.

Example interpret_wait_interrupted :
  Sim.interpret (Sim.core_config "fDu" (fun k => (4 <=? k)%nat)) =
  (Interrupted,
   {| dev := ["period"]%string;
      reads := 5;
      log := [SetFrequency 1000; Wait 250] |}).
Proof. reflexivity. Qed.

Section InterpreterFacts.

Variable Device : Type.
Variable period_of : Device -> N.
Variable set_frequency : N -> Device -> Error + Device.
Variable set_duty : N -> Device -> Error + Device.
Variable enable : Device -> Error + Device.

(** A step that finds the stop flag set ends the run there: interrupted,
    with the device and the log as they were. *)
Lemma run_stopped (cfg : ExecutionConfig) (script : string)
      (st : Interp Device) :
  stop_flag cfg (reads _ st) = true ->
  run Device period_of set_frequency set_duty enable cfg script st =
  (Interrupted,
   {| dev := dev _ st; reads := S (reads _ st); log := log _ st |}).
Proof.
  intros H. destruct script; simpl; rewrite H; reflexivity.
Qed.

End InterpreterFacts.

End CoreFacts.

(* ================================================================== *)
(** ** Facts about main.c *)

Module MainFacts.
Import Libc Pwm Main.

Section ParseFacts.

Context {api : Api}.
Variable heap_ok : string -> bool.

(** An option that passes only updates [config]: [duty_val] changes on
    [--duty] alone, [script] on [--script] alone, and [keep_enabled] on
    [--keep-enabled] alone. *)
Lemma parse_passes (o : getopt_t) (c : config_t) :
  passes heap_ok o = true ->
  exists c',
    (forall argv',
       parse_cli_args heap_ok (o :: argv') c =
       parse_cli_args heap_ok argv' c') /\
    (opt o <> "D"%char -> duty_val c' = duty_val c) /\
    script c' =
      (if Ascii.eqb (opt o) "s" then Some (optarg o) else script c) /\
    keep_enabled c' =
      (if Ascii.eqb (opt o) "k" then 1 else keep_enabled c).
Proof.
  unfold passes. destruct o as [ch arg]. cbn [opt optarg parse_cli_args].
  destruct ch as [[] [] [] [] [] [] [] []]; intros H;
    try discriminate H;
    try (eexists; split;
         [ intros argv'; reflexivity
         | split; [ intros _; reflexivity | split; reflexivity ] ]).
  - (* 's': the copy succeeded *)
    unfold strdup. rewrite H. cbn.
    eexists; split;
      [ intros argv'; reflexivity
      | split; [ intros _; reflexivity | split; reflexivity ] ].
  - (* 'D': with or without the percent sign *)
    match goal with |- context [if ?b then _ else _] => destruct b end;
      (eexists; split;
       [ intros argv'; reflexivity
       | split; [ intros N; now contradiction N | split; reflexivity ] ]).
Qed.

Lemma parse_stops (o : getopt_t) (argv' : list getopt_t) (c : config_t) :
  passes heap_ok o = false ->
  stops heap_ok o c (parse_cli_args heap_ok (o :: argv') c).
Proof.
  unfold passes. destruct o as [ch arg]. cbn [opt optarg parse_cli_args].
  destruct ch as [[] [] [] [] [] [] [] []]; intros H;
    try discriminate H;
    first [ apply stops_invalid; reflexivity
          | apply stops_help; reflexivity
          | apply stops_version; reflexivity
          | unfold strdup; rewrite H; apply stops_no_memory;
            [ reflexivity | exact H ] ].
Qed.

Lemma stops_flow (o : getopt_t) (c : config_t)
      (res : flow * config_t * list event) :
  stops heap_ok o c res ->
  passes heap_ok o = false /\
  fst (fst res) <> Return 0 /\
  filter is_pwm_call (snd res) = [] /\
  match fst (fst res) with
  | Return r => opt o = "?"%char /\ r = - EINVAL /\ snd res = []
  | Exit _ => opt o <> "?"%char
  end.
Proof.
  unfold passes.
  destruct 1 as [E | E | E | E F]; rewrite E; cbn; repeat split;
    try discriminate; try assumption.
Qed.

(** When every option passes, the loop runs to EOF and returns 0. *)
Lemma parse_all_pass (argv : list getopt_t) (c : config_t) :
  forallb (passes heap_ok) argv = true ->
  fst (fst (parse_cli_args heap_ok argv c)) = Return 0 /\
  snd (parse_cli_args heap_ok argv c) = [].
Proof.
  revert c. induction argv as [ | o argv IH]; intros c H.
  - split; reflexivity.
  - cbn [forallb] in H. apply andb_true_iff in H as [Ho Hrest].
    destruct (parse_passes o c Ho) as (c' & -> & _). now apply IH.
Qed.

(** Otherwise the loop ends at the first option that does not pass. *)
Lemma parse_first_stop (pre : list getopt_t) (o : getopt_t)
      (rest : list getopt_t) (c : config_t) :
  forallb (passes heap_ok) pre = true ->
  passes heap_ok o = false ->
  exists c', stops heap_ok o c' (parse_cli_args heap_ok (pre ++ o :: rest) c).
Proof.
  revert c. induction pre as [ | p pre IH]; intros c Hpre Ho.
  - exists c. now apply parse_stops.
  - cbn [forallb] in Hpre. apply andb_true_iff in Hpre as [Hp Hpre].
    cbn [app]. destruct (parse_passes p c Hp) as (c' & -> & _).
    now apply IH.
Qed.

Lemma first_stop (argv : list getopt_t) :
  forallb (passes heap_ok) argv = false ->
  exists pre o rest,
    argv = pre ++ o :: rest /\
    forallb (passes heap_ok) pre = true /\ passes heap_ok o = false.
Proof.
  induction argv as [ | a argv IH]; cbn [forallb]; intros H.
  - discriminate.
  - destruct (passes heap_ok a) eqn:Ha.
    + destruct (IH H) as (pre & o & rest & -> & Hpre & Ho).
      exists (a :: pre), o, rest. cbn [forallb]. rewrite Ha. auto.
    + exists [], a, argv. auto.
Qed.

(** The two outcomes of [parse_cli_args]. *)
Lemma parse_outcome (argv : list getopt_t) (c : config_t) :
  (forallb (passes heap_ok) argv = true /\
   fst (fst (parse_cli_args heap_ok argv c)) = Return 0 /\
   snd (parse_cli_args heap_ok argv c) = []) \/
  (exists o c', In o argv /\ stops heap_ok o c' (parse_cli_args heap_ok argv c)).
Proof.
  destruct (forallb (passes heap_ok) argv) eqn:H.
  - left. split; [reflexivity | now apply parse_all_pass].
  - right. destruct (first_stop argv H) as (pre & o & rest & -> & Hpre & Ho).
    destruct (parse_first_stop pre o rest c Hpre Ho) as [c' Hc'].
    exists o, c'. split; [ | exact Hc'].
    apply in_or_app. right. now left.
Qed.

Lemma invalid_does_not_pass (argv : list getopt_t) :
  In "?"%char (map opt argv) -> forallb (passes heap_ok) argv = false.
Proof.
  induction argv as [ | a argv IH]; cbn [map In forallb]; intros H.
  - contradiction.
  - destruct H as [H | H].
    + unfold passes. rewrite H. reflexivity.
    + rewrite (IH H). apply andb_false_r.
Qed.

(** The case 'D' of the switch, by the last character of the argument. *)
Lemma parse_duty (arg : string) (rest : list getopt_t) (c : config_t) :
  parse_cli_args heap_ok ({| opt := "D"; optarg := arg |} :: rest) c =
  parse_cli_args heap_ok rest (set_duty_val c (duty_of_argument arg)).
Proof.
  cbn [parse_cli_args opt optarg].
  unfold duty_of_argument, ends_with_percent.
  destruct arg as [ | a r].
  - reflexivity.
  - rewrite LibcFacts.char_at_last by discriminate.
    replace (0 <? strlen (String a r)) with true.
    + cbn [andb]. destruct (last_char (String a r)) as [ch | ];
        [destruct (Ascii.eqb ch "%") | ]; reflexivity.
    + symmetry. apply Z.ltb_lt. unfold strlen. cbn [String.length]. lia.
Qed.



(** On an argument vector that parses, [script] is the argument of the
    last [--script], and [keep_enabled] is set by any [--keep-enabled]. *)
Lemma parse_script (argv : list getopt_t) (c : config_t) :
  forallb (passes heap_ok) argv = true ->
  script (snd (fst (parse_cli_args heap_ok argv c))) =
  fold_left
    (fun found o => if Ascii.eqb (opt o) "s" then Some (optarg o) else found)
    argv (script c) /\
  keep_enabled (snd (fst (parse_cli_args heap_ok argv c))) =
  (if existsb (fun o => Ascii.eqb (opt o) "k") argv then 1
   else keep_enabled c).
Proof.
  revert c. induction argv as [ | o argv IH]; intros c H.
  - split; reflexivity.
  - cbn [forallb] in H. apply andb_true_iff in H as [Ho Hrest].
    destruct (parse_passes o c Ho) as (c1 & -> & _ & Hs & Hk).
    destruct (IH c1 Hrest) as [-> ->].
    cbn [fold_left existsb]. rewrite Hs, Hk.
    split; [reflexivity | ].
    destruct (Ascii.eqb (opt o) "k"); cbn [orb]; [ | reflexivity].
    now destruct (existsb _ argv).
Qed.


End ParseFacts.

Section RunFacts.

Context {api : Api}.
Variable argv : list getopt_t.
Variable heap_ok : string -> bool.
Variable hw0 : hw_t.

(** Any delivery of SIGINT leaves 1 in [exit_flag]. *)
Lemma deliver_flag (n : nat) (flag : Z) :
  deliver n flag = match n with O => flag | S _ => 1 end.
Proof. destruct n; reflexivity. Qed.

Lemma make_execute_config_stop_flag (c : config_t) :
  stop_flag (make_execute_config c) = addr_exit_flag.
Proof. unfold make_execute_config. destruct (script c); reflexivity. Qed.

Lemma exit_pc (code : Z) (s : state) : pc (exit code s) = halted code.
Proof. reflexivity. Qed.

Lemma exit_config (code : Z) (s : state) : config (exit code s) = config s.
Proof.
  unfold exit, cleanup.
  destruct (atexit_cleanup s), (script (config s)); reflexivity.
Qed.

Lemma exit_calls (code : Z) (s : state) :
  pwm_calls (exit code s) = pwm_calls s.
Proof.
  unfold exit, cleanup, pwm_calls.
  destruct (atexit_cleanup s), (script (config s)); cbn;
    rewrite ?filter_app, ?app_nil_r; reflexivity.
Qed.

Lemma invariant_start : invariant argv heap_ok hw0 (start hw0).
Proof. reflexivity. Qed.

Lemma invariant_statement (during : list nat) (s : state) :
  invariant argv heap_ok hw0 s ->
  invariant argv heap_ok hw0 (main_step argv heap_ok during s).
Proof.
  unfold invariant at 1, main_step.
  destruct (pc s) as [ | | | | pwm | pwm cfg | pwm | | code] eqn:Hpc.
  - (* line 292 *)
    intros ->. cbn [config start].
    unfold invariant, parsed_flow, parsed_config.
    destruct (parse_outcome heap_ok argv config_init)
      as [(_ & Hflow & Hout) | (o & c' & _ & Hstop)].
    + destruct (parse_cli_args heap_ok argv config_init) as [[r c] evs].
      cbn [fst snd] in *. subst r evs. cbn. auto.
    + apply stops_flow in Hstop as (_ & Hflow & Hcalls & Hshape).
      destruct (parse_cli_args heap_ok argv config_init) as [[r c] evs].
      cbn [fst snd] in *.
      destruct r as [r | code].
      * destruct Hshape as (_ & -> & ->). cbn. left.
        repeat split; auto.
      * rewrite exit_pc. left. rewrite exit_calls.
        unfold pwm_calls. cbn. auto.
  - (* line 297 *)
    intros (Hflow & Hcfg & Hhw & Hcalls). unfold invariant. cbn.
    unfold pwm_calls in *. cbn. rewrite filter_app, Hcalls. auto.
  - (* line 299 *)
    intros (Hflow & Hcfg & Hhw & Hcalls). unfold invariant. cbn.
    unfold pwm_calls in *. cbn. rewrite filter_app, Hcalls. auto.
  - (* line 301 *)
    intros (Hflow & Hcfg & Hhw & Hcalls).
    rewrite Hcfg, Hhw.
    change (pwm_open _ _ _ hw0) with (opened argv heap_ok hw0).
    destruct (opened argv heap_ok hw0) as [[r pwm] h] eqn:Hopen.
    cbn [ret emit set_hw set_ret].
    destruct (Z.eqb_spec r PWM_E_OK) as [-> | Hr].
    + unfold invariant. cbn. unfold pwm_calls in *. cbn.
      rewrite filter_app, Hcalls, Hcfg. cbn. auto.
    + unfold invariant. rewrite exit_pc, exit_calls, exit_config.
      right; left. split; [exact Hflow | ]. split; [exact Hcfg | ].
      exists r, pwm, h. unfold pwm_calls in *. cbn.
      rewrite !filter_app, Hcalls, Hcfg. cbn. auto.
  - (* lines 309-322 *)
    intros (Hflow & Hcfg & Hopen & Hcalls). unfold invariant. cbn.
    rewrite Hcfg. auto.
  - (* line 324 *)
    intros (Hflow & Hcfg & Hopen & -> & Hcalls).
    rewrite make_execute_config_stop_flag.
    destruct (pwm_execute pwm _ _ (hw s)) as [[r pwm'] h] eqn:Hexec.
    unfold invariant. cbn. split; [exact Hflow | ]. split; [exact Hcfg | ].
    exists pwm. split.
    + exists (hw s), during, (exit_flag s). auto.
    + unfold pwm_calls in *. cbn. rewrite filter_app, Hcalls. reflexivity.
  - (* line 326 *)
    intros (Hflow & Hcfg & pwm0 & Hexec & Hcalls).
    destruct (pwm_close pwm (hw s)) as [p h]. unfold invariant. cbn.
    split; [exact Hflow | ]. split; [exact Hcfg | ].
    exists pwm0, pwm, (hw s). split; [exact Hexec | ].
    unfold pwm_calls in *. cbn. rewrite filter_app, Hcalls. reflexivity.
  - (* line 328 *)
    intros (Hflow & Hcfg & pwm0 & pwm1 & h1 & Hexec & Hcalls).
    unfold invariant. rewrite exit_pc, exit_calls, exit_config.
    right; right. split; [exact Hflow | ]. split; [exact Hcfg | ].
    exists pwm0, pwm1, h1. auto.
  - (* the process is gone *)
    intros H. unfold invariant. rewrite Hpc. exact H.
Qed.

Lemma invariant_sigint (s : state) :
  invariant argv heap_ok hw0 s ->
  invariant argv heap_ok hw0 (step argv heap_ok Sigint s).
Proof.
  unfold step. destruct (running s && sigint_handler s) eqn:E; [ | auto].
  apply andb_true_iff in E as [_ E].
  unfold invariant.
  destruct (pc s) eqn:Hpc; cbn; rewrite Hpc; auto.
  intros ->. discriminate E.
Qed.

Lemma invariant_step (a : action) (s : state) :
  invariant argv heap_ok hw0 s ->
  invariant argv heap_ok hw0 (step argv heap_ok a s).
Proof.
  destruct a as [during | ].
  - apply invariant_statement.
  - apply invariant_sigint.
Qed.

Lemma invariant_run_from (sched : list action) (s : state) :
  invariant argv heap_ok hw0 s ->
  invariant argv heap_ok hw0 (run_from argv heap_ok s sched).
Proof.
  revert s. induction sched as [ | a sched IH]; intros s H.
  - exact H.
  - cbn. apply IH. now apply invariant_step.
Qed.

(** Every state of every run satisfies the invariant. *)
Lemma invariant_run (sched : list action) :
  invariant argv heap_ok hw0 (run argv heap_ok hw0 sched).
Proof. apply invariant_run_from, invariant_start. Qed.

End RunFacts.

Section Claims.

Context {api : Api}.
Variable argv : list getopt_t.
Variable heap_ok : string -> bool.
Variable hw0 : hw_t.

Lemma in_pwm_calls (s : state) (e : event) :
  In e (out s) -> is_pwm_call e = true -> In e (pwm_calls s).
Proof. intros H E. apply filter_In. auto. Qed.

(** A call of [pwm_execute] was made with the handle [pwm_open] returned
    and the configuration of lines 309-322, and its status is in [ret]
    until the exit. *)
Lemma execute_event (sched : list action) (pwm : pwm_t)
      (cfg : pwm_execute_config_t) (r : pwm_status_t) :
  In (Ev_pwm_execute pwm cfg r) (out (run argv heap_ok hw0 sched)) ->
  parsed_flow argv heap_ok = Return 0 /\
  config (run argv heap_ok hw0 sched) = parsed_config argv heap_ok /\
  cfg = make_execute_config (parsed_config argv heap_ok) /\
  (exists pwm1 h1, executed argv heap_ok hw0 pwm r pwm1 h1) /\
  (forall code, pc (run argv heap_ok hw0 sched) = halted code -> code = r) /\
  (pc (run argv heap_ok hw0 sched) = at_exit \/
   (exists code, pc (run argv heap_ok hw0 sched) = halted code) ->
   exists pwm1, In (Ev_pwm_close pwm1) (pwm_calls (run argv heap_ok hw0 sched))).
Proof.
  intros Hin. apply in_pwm_calls in Hin; [ | reflexivity].
  pose proof (invariant_run argv heap_ok hw0 sched) as Inv.
  unfold invariant in Inv.
  set (s := run argv heap_ok hw0 sched) in *.
  assert (Hopen : forall r', ~ In (Ev_pwm_execute pwm cfg r)
                               [call_open argv heap_ok r']).
  { intros r' [H | []]. discriminate H. }
  assert (Hexec :
    forall pwm0 r0 more,
      (forall e, In e more -> exists p, e = Ev_pwm_close p) ->
      In (Ev_pwm_execute pwm cfg r)
         (call_open argv heap_ok PWM_E_OK ::
          call_execute argv heap_ok pwm0 r0 :: more) ->
      pwm = pwm0 /\ cfg = make_execute_config (parsed_config argv heap_ok) /\
      r = r0).
  { intros pwm0 r0 more Hmore [H | [H | H]].
    - discriminate H.
    - unfold call_execute in H. injection H as -> -> ->. auto.
    - destruct (Hmore _ H) as [p E]. discriminate E. }
  destruct (pc s) as [ | | | | p | p c | p | | code] eqn:Hpc.
  - rewrite Inv in Hin. destruct Hin.
  - destruct Inv as (_ & _ & _ & E). rewrite E in Hin. destruct Hin.
  - destruct Inv as (_ & _ & _ & E). rewrite E in Hin. destruct Hin.
  - destruct Inv as (_ & _ & _ & E). rewrite E in Hin. destruct Hin.
  - destruct Inv as (_ & _ & _ & E). rewrite E in Hin.
    now apply Hopen in Hin.
  - destruct Inv as (_ & _ & _ & _ & E). rewrite E in Hin.
    now apply Hopen in Hin.
  - destruct Inv as (Hflow & Hcfg & pwm0 & Hex & E). rewrite E in Hin.
    apply Hexec in Hin as (-> & -> & ->); [ | intros e []].
    repeat split; auto.
    + now exists p, (hw s).
    + discriminate.
    + intros [H | [code H]]; discriminate H.
  - destruct Inv as (Hflow & Hcfg & pwm0 & pwm1 & h1 & Hex & E).
    rewrite E in Hin |- *.
    apply Hexec in Hin as (-> & -> & ->).
    + repeat split; auto.
      * now exists pwm1, h1.
      * discriminate.
      * intros _. exists pwm1. cbn. auto.
    + intros e [<- | []]. now exists pwm1.
  - destruct Inv as [(_ & E & _) | [(_ & _ & r' & p & h & _ & _ & _ & E)
                    | (Hflow & Hcfg & pwm0 & pwm1 & h1 & Hex & E)]].
    + rewrite E in Hin. destruct Hin.
    + rewrite E in Hin. now apply Hopen in Hin.
    + rewrite E in Hin |- *.
      apply Hexec in Hin as (-> & -> & ->).
      * repeat split; auto.
        -- now exists pwm1, h1.
        -- intros code' H. now injection H.
        -- intros _. exists pwm1. cbn. auto.
      * intros e [<- | []]. now exists pwm1.
Qed.

(** A run that got past [parse_cli_args] had only options that pass. *)
Lemma parsed_all_pass :
  parsed_flow argv heap_ok = Return 0 ->
  forallb (passes heap_ok) argv = true.
Proof.
  unfold parsed_flow. intros H.
  destruct (parse_outcome heap_ok argv config_init)
    as [(Hp & _) | (o & c' & _ & Hstop)].
  - exact Hp.
  - apply stops_flow in Hstop as (_ & Hflow & _). contradiction.
Qed.

(** C1: whenever the interpreter is invoked, the script it is passed is
    the script of the configuration if there is one, unchanged, and
    otherwise "fduk" when [keep_enabled] is set and "fdu" when it is not;
    in terms of the command line, it is the argument of the last
    [--script] if there is one, and otherwise "fduk" or "fdu" according to
    whether [--keep-enabled] was given. *)
Theorem script_passed (sched : list action) (pwm : pwm_t)
        (cfg : pwm_execute_config_t) (r : pwm_status_t) :
  In (Ev_pwm_execute pwm cfg r) (out (run argv heap_ok hw0 sched)) ->
  Pwm.script cfg =
  match script (config (run argv heap_ok hw0 sched)) with
  | Some supplied => Some supplied
  | None =>
      if keep_enabled (config (run argv heap_ok hw0 sched)) =? 0
      then Some "fdu"%string else Some "fduk"%string
  end /\
  Pwm.script cfg =
  match supplied_script argv with
  | Some supplied => Some supplied
  | None =>
      if keep_enabled_given argv
      then Some "fduk"%string else Some "fdu"%string
  end.
Proof.
  intros H. apply execute_event in H as (Hflow & -> & -> & _).
  destruct (parse_script heap_ok argv config_init (parsed_all_pass Hflow))
    as [Hs Hk].
  fold (parsed_config argv heap_ok) in Hs, Hk.
  unfold supplied_script, keep_enabled_given. cbn [script config_init] in Hs.
  cbn [keep_enabled config_init] in Hk. rewrite <- Hs.
  unfold make_execute_config.
  destruct (script (parsed_config argv heap_ok)); [split; reflexivity | ].
  cbn [Pwm.script]. rewrite Hk.
  destruct (existsb _ argv); split; reflexivity.
Qed.

(** C3: a run that reached the interpreter exits with the status
    [pwm_execute] returned, which is 0 on success; a run in which
    [pwm_open] failed exits with the status of [pwm_open] and never invokes
    the interpreter. *)
Theorem exit_code (sched : list action) (code : Z) :
  pc (run argv heap_ok hw0 sched) = halted code ->
  (forall pwm cfg r,
     In (Ev_pwm_execute pwm cfg r) (out (run argv heap_ok hw0 sched)) ->
     code = r /\ (r = PWM_E_OK -> code = 0)) /\
  (forall chip channel flags r,
     In (Ev_pwm_open chip channel flags r)
        (out (run argv heap_ok hw0 sched)) ->
     r <> PWM_E_OK ->
     code = r /\
     forall pwm cfg r',
       ~ In (Ev_pwm_execute pwm cfg r') (out (run argv heap_ok hw0 sched))).
Proof.
  intros Hpc. split.
  - intros pwm cfg r Hin.
    apply execute_event in Hin as (_ & _ & _ & _ & Hcode & _).
    rewrite (Hcode code Hpc). split; [reflexivity | ]. intros ->. reflexivity.
  - intros c ch f r Hin Hr.
    apply in_pwm_calls in Hin; [ | reflexivity].
    pose proof (invariant_run argv heap_ok hw0 sched) as Inv.
    unfold invariant in Inv. rewrite Hpc in Inv.
    destruct Inv as [(_ & E & _) | [(_ & _ & r' & p & h & _ & _ & Hc & E)
                    | (_ & _ & pwm0 & pwm1 & h1 & _ & E)]].
    + rewrite E in Hin. destruct Hin.
    + rewrite E in Hin. destruct Hin as [H | []].
      inversion H; subst. split; [reflexivity | ].
      intros pwm cfg r0 Hex. apply in_pwm_calls in Hex; [ | reflexivity].
      rewrite E in Hex. destruct Hex as [Hex | []]. discriminate Hex.
    + rewrite E in Hin. destruct Hin as [H | [H | [H | []]]];
        try discriminate H.
      inversion H; subst. now contradiction Hr.
Qed.

(** *** The stop flag *)

Lemma exit_flag_exit (code : Z) (s : state) :
  exit_flag (exit code s) = exit_flag s.
Proof.
  unfold exit, cleanup.
  destruct (atexit_cleanup s), (script (config s)); reflexivity.
Qed.

(** A step leaves [exit_flag] as it is or leaves 1 in it. *)
Lemma step_flag (a : action) (s : state) :
  exit_flag (step argv heap_ok a s) = exit_flag s \/
  exit_flag (step argv heap_ok a s) = 1.
Proof.
  destruct a as [during | ]; cbn [step].
  - unfold main_step.
    destruct (pc s) as [ | | | | pwm | pwm cfg | pwm | | code]; auto.
    + destruct (parse_cli_args heap_ok argv (config s)) as [[[r | c] cfg] evs].
      * destruct (r =? 0); [ | rewrite exit_flag_exit]; auto.
      * rewrite exit_flag_exit. auto.
    + destruct (pwm_open _ _ _ _) as [[r pwm] h]. cbn [ret emit set_hw set_ret].
      destruct (r =? PWM_E_OK); [ | rewrite exit_flag_exit]; auto.
    + destruct (pwm_execute _ _ _ _) as [[r pwm'] h]. cbn.
      rewrite deliver_flag. destruct (List.length during); auto.
    + destruct (pwm_close _ _) as [p h]. auto.
    + rewrite exit_flag_exit. auto.
  - destruct (running s && sigint_handler s); auto.
Qed.

Lemma flag_history_set (sched : list action) (s : state) :
  exit_flag s = 1 ->
  map exit_flag (states_from argv heap_ok s sched)
  = repeat 1 (S (List.length sched)).
Proof.
  revert s. induction sched as [ | a sched IH]; intros s H.
  - cbn. now rewrite H.
  - cbn [states_from map List.length]. rewrite H.
    change (repeat 1 (S (S (List.length sched))))
      with (1 :: repeat 1 (S (List.length sched))).
    f_equal. apply IH. destruct (step_flag a s) as [E | E]; congruence.
Qed.

Lemma flag_history (sched : list action) (s : state) :
  exit_flag s = 0 ->
  exists n m,
    map exit_flag (states_from argv heap_ok s sched)
    = repeat 0 (S n) ++ repeat 1 m.
Proof.
  revert s. induction sched as [ | a sched IH]; intros s H.
  - exists 0%nat, 0%nat. cbn. now rewrite H.
  - cbn [states_from map]. rewrite H.
    destruct (step_flag a s) as [E | E].
    + rewrite H in E. destruct (IH _ E) as (n & m & ->).
      now exists (S n), m.
    + rewrite (flag_history_set sched _ E).
      now exists 0%nat, (S (List.length sched)).
Qed.

Lemma arrived_le (during : list nat) (k k' : nat) :
  (k <= k')%nat -> (arrived during k <= arrived during k')%nat.
Proof.
  intros H. unfold arrived. induction during as [ | j during IH].
  - reflexivity.
  - cbn [filter].
    destruct (Nat.leb_spec j k), (Nat.leb_spec j k'); cbn [List.length]; lia.
Qed.

(** C5: [exit_flag] is 0 at process start; [handle_signal] leaves 1 in it
    whatever the signal; along every run its value is 0 for a while and
    then 1 for the rest, so it changes at most once and never back; and
    the values [pwm_execute] reads through the pointer never go back from
    1 either. *)
Theorem exit_flag_monotone :
  exit_flag (start hw0) = 0 /\
  (forall signal flag, handle_signal signal flag = 1) /\
  (forall sched, exists n m,
     map exit_flag (states_from argv heap_ok (start hw0) sched)
     = repeat 0 (S n) ++ repeat 1 m) /\
  (forall p during flag k k',
     (k <= k')%nat ->
     read_flag p during flag k = 1 -> read_flag p during flag k' = 1).
Proof.
  split; [reflexivity | ]. split; [reflexivity | ]. split.
  - intros sched. now apply flag_history.
  - intros [] during flag k k' Hk. unfold read_flag. rewrite !deliver_flag.
    pose proof (arrived_le during k k' Hk) as Hle.
    destruct (arrived during k), (arrived during k'); auto. lia.
Qed.

(** *** Termination of [main] *)

Lemma statement_remaining (during : list nat) (s : state) :
  remaining (pc s) <> 0%nat ->
  (remaining (pc (main_step argv heap_ok during s)) < remaining (pc s))%nat.
Proof.
  unfold main_step.
  destruct (pc s) as [ | | | | pwm | pwm cfg | pwm | | code]; cbn; try lia.
  - destruct (parse_cli_args heap_ok argv (config s)) as [[[r | c] cfg] evs].
    + destruct (r =? 0); cbn; lia.
    + cbn; lia.
  - destruct (pwm_open _ _ _ _) as [[r pwm] h]. cbn.
    destruct (r =? PWM_E_OK); cbn; lia.
  - destruct (pwm_execute _ _ _ _) as [[r pwm'] h]. cbn. lia.
  - destruct (pwm_close _ _) as [p h]. cbn. lia.
Qed.

Lemma halts_from (n : nat) (s : state) :
  (remaining (pc s) <= n)%nat ->
  remaining (pc (run_from argv heap_ok s (repeat (Statement []) n))) = 0%nat.
Proof.
  revert s. induction n as [ | n IH]; intros s H.
  - cbn. lia.
  - cbn [repeat]. unfold run_from. cbn [fold_left]. apply IH.
    destruct (Nat.eq_dec (remaining (pc s)) 0) as [E | E].
    + cbn [step]. unfold main_step.
      destruct (pc s) eqn:Hpc; try discriminate E. rewrite Hpc. cbn. lia.
    + pose proof (statement_remaining [] s E). cbn [step]. lia.
Qed.

Lemma remaining_zero (s : state) :
  remaining (pc s) = 0%nat -> exists code, pc s = halted code.
Proof. destruct (pc s); try discriminate. eauto. Qed.

Lemma run_from_app (s : state) (sched more : list action) :
  run_from argv heap_ok s (sched ++ more) =
  run_from argv heap_ok (run_from argv heap_ok s sched) more.
Proof. unfold run_from. apply fold_left_app. Qed.

Lemma remaining_bound (l : label) : (remaining l <= 8)%nat.
Proof. destruct l; cbn [remaining]; lia. Qed.

(** Eight more statements bring any run to its exit. *)
Lemma run_halts (sched : list action) :
  exists code,
    pc (run argv heap_ok hw0 (sched ++ repeat (Statement []) 8))
    = halted code.
Proof.
  unfold run. rewrite run_from_app.
  apply remaining_zero. apply (halts_from 8). apply remaining_bound.
Qed.

(** C4, as amended: when the arguments are valid and [pwm_open] succeeds,
    every run calls [pwm_open], [pwm_execute] on the configuration built
    from the arguments, and [pwm_close] whatever [pwm_execute] returned, in
    this order and nothing else of the library, and exits with the status
    of [pwm_execute]; and every run comes to its exit. *)
Theorem main_sequence :
  parsed_flow argv heap_ok = Return 0 ->
  fst (fst (opened argv heap_ok hw0)) = PWM_E_OK ->
  performs_sequence argv heap_ok hw0 /\
  (forall sched, exists code,
     pc (run argv heap_ok hw0 (sched ++ repeat (Statement []) 8))
     = halted code).
Proof.
  intros Hflow Hopen. split; [ | apply run_halts].
  intros sched code Hpc.
  pose proof (invariant_run argv heap_ok hw0 sched) as Inv.
  unfold invariant in Inv. rewrite Hpc in Inv.
  destruct Inv as [(Hno & _) | [(_ & _ & r & p & h & E & Hr & _)
                  | (_ & _ & pwm0 & pwm1 & h1 & _ & E)]].
  - contradiction.
  - rewrite E in Hopen. contradiction.
  - exists pwm0, pwm1, code. auto.
Qed.

(** C10, as amended: when the argument vector contains an option that
    [getopt_long] reports as invalid, no run ever calls the PWM library,
    and every run exits at its first statement; when no option before the
    first invalid one ends the program ([--help], [--version], or a
    [--script] that cannot be copied), the run prints the usage text and
    exits with EINVAL. *)
Theorem invalid_option :
  In "?"%char (map opt argv) ->
  (forall sched, pwm_calls (run argv heap_ok hw0 sched) = []) /\
  (forall sched during, exists code,
     pc (run argv heap_ok hw0 (sched ++ [Statement during])) = halted code) /\
  (forall pre o rest,
     argv = pre ++ o :: rest ->
     forallb (passes heap_ok) pre = true -> opt o = "?"%char ->
     rejects_arguments argv heap_ok hw0).
Proof.
  intros Hin.
  apply (invalid_does_not_pass heap_ok) in Hin.
  assert (Hflow : parsed_flow argv heap_ok <> Return 0).
  { unfold parsed_flow.
    destruct (parse_outcome heap_ok argv config_init)
      as [(Hp & _) | (o & c' & _ & Hstop)].
    - congruence.
    - now apply stops_flow in Hstop. }
  assert (Hstates : forall sched,
            run argv heap_ok hw0 sched = start hw0 \/
            exists code, pc (run argv heap_ok hw0 sched) = halted code).
  { intros sched.
    pose proof (invariant_run argv heap_ok hw0 sched) as Inv.
    unfold invariant in Inv.
    destruct (pc (run argv heap_ok hw0 sched)) eqn:Hpc;
      try (destruct Inv as (Inv & _); contradiction); eauto. }
  assert (Hcalls : forall sched, pwm_calls (run argv heap_ok hw0 sched) = []).
  { intros sched.
    pose proof (invariant_run argv heap_ok hw0 sched) as Inv.
    unfold invariant in Inv.
    destruct (pc (run argv heap_ok hw0 sched)) eqn:Hpc;
      try (destruct Inv as (Inv & _); contradiction).
    - rewrite Inv. reflexivity.
    - destruct Inv as [(_ & E & _) | [(Inv & _) | (Inv & _)]];
        [exact E | contradiction | contradiction]. }
  split; [exact Hcalls | ]. split.
  - intros sched during. unfold run. rewrite run_from_app.
    fold (run argv heap_ok hw0 sched).
    unfold run_from at 1. cbn [fold_left step].
    destruct (Hstates sched) as [-> | [code Hpc]].
    + apply remaining_zero.
      pose proof (invariant_statement argv heap_ok hw0 during (start hw0)
                    (invariant_start argv heap_ok hw0)) as Inv.
      unfold invariant in Inv.
      destruct (pc (main_step argv heap_ok during (start hw0))) eqn:Hpc;
        try (destruct Inv as (Inv & _); contradiction);
        try reflexivity.
      pose proof (statement_remaining during (start hw0)) as Hlt.
      rewrite Hpc in Hlt. cbn in Hlt. lia.
    + exists code. unfold main_step. rewrite Hpc. exact Hpc.
  - intros pre o rest Hargv Hpre Ho sched code Hpc.
    destruct (parse_first_stop heap_ok pre o rest config_init Hpre)
      as [c' Hstop].
    { unfold passes. rewrite Ho. reflexivity. }
    rewrite <- Hargv in Hstop.
    apply stops_flow in Hstop as (_ & _ & _ & Hshape).
    pose proof (invariant_run argv heap_ok hw0 sched) as Inv.
    unfold invariant in Inv. rewrite Hpc in Inv.
    destruct Inv as [(_ & E & Hcode) | [(Inv & _) | (Inv & _)]];
      [ | contradiction | contradiction].
    unfold parsed_flow in Hcode.
    destruct (fst (fst (parse_cli_args heap_ok argv config_init))).
    + destruct Hcode as [-> Husage]. auto.
    + contradiction.
Qed.

(** *** The [--duty] argument *)



(** *** Interruption *)

(** C8: when the stop flag is set at the first read, the interpreter
    returns "interrupted" on any script, with no command executed and the
    device as it was; this status is not an error; and the caller closes
    the device whatever status the interpreter returned. *)
Theorem stop_before_first_step (Device : Type) (period_of : Device -> N)
        (set_frequency set_duty : N -> Device -> Core.Error + Device)
        (enable : Device -> Core.Error + Device)
        (cfg : Core.ExecutionConfig) (d : Device) :
  Core.stop_flag cfg 0%nat = true ->
  (let res :=
     Core.execute Device period_of set_frequency set_duty enable cfg d in
   fst res = Core.Interrupted /\
   Core.log Device (snd res) = [] /\
   Core.dev Device (snd res) = d /\
   Core.is_error (fst res) = false) /\
  (forall sched pwm c r code,
     In (Ev_pwm_execute pwm c r) (out (run argv heap_ok hw0 sched)) ->
     pc (run argv heap_ok hw0 sched) = halted code ->
     exists pwm1,
       In (Ev_pwm_close pwm1) (out (run argv heap_ok hw0 sched))).
Proof.
  intros Hstop. split.
  - unfold Core.execute. rewrite CoreFacts.run_stopped by exact Hstop.
    cbn. auto.
  - intros sched pwm c r code Hin Hpc.
    apply execute_event in Hin as (_ & _ & _ & _ & _ & Hclose).
    destruct Hclose as [pwm1 H]; [right; now exists code | ].
    exists pwm1. unfold pwm_calls in H. now apply filter_In in H.
Qed.

End Claims.

Section KeepEnabled.

Context {api : Api}.
Variable heap_ok : string -> bool.
Variable hw0 : hw_t.

Lemma forget_fields (s1 s2 : state) :
  forget_keep_enabled s1 = forget_keep_enabled s2 ->
  pc s1 = pc s2 /\ exit_flag s1 = exit_flag s2 /\ ret s1 = ret s2 /\
  sigint_handler s1 = sigint_handler s2 /\
  atexit_cleanup s1 = atexit_cleanup s2 /\
  hw s1 = hw s2 /\ out s1 = out s2 /\
  set_keep_enabled (config s1) 0 = set_keep_enabled (config s2) 0.
Proof.
  unfold forget_keep_enabled, set_config. intros H.
  injection H. intros. repeat split; try assumption.
  unfold set_keep_enabled. congruence.
Qed.

Lemma forget_config (c1 c2 : config_t) :
  set_keep_enabled c1 0 = set_keep_enabled c2 0 ->
  chip c1 = chip c2 /\ channel c1 = channel c2 /\ script c1 = script c2.
Proof. unfold set_keep_enabled. intros H. injection H. auto. Qed.

(** With a script supplied, the configuration handed to the interpreter
    does not depend on [keep_enabled]. *)
Lemma make_execute_config_supplied (c1 c2 : config_t) :
  set_keep_enabled c1 0 = set_keep_enabled c2 0 ->
  script c1 <> None ->
  make_execute_config c1 = make_execute_config c2.
Proof.
  unfold set_keep_enabled, make_execute_config. intros H Hs.
  injection H as _ _ Hf Hd Hv Hsc. rewrite <- Hsc, Hf, Hd, Hv.
  destruct (script c1); [reflexivity | congruence].
Qed.

Ltac same_but_keep_enabled :=
  unfold forget_keep_enabled, set_config; cbn; f_equal; congruence.

Lemma forget_exit (code : Z) (s1 s2 : state) :
  forget_keep_enabled s1 = forget_keep_enabled s2 ->
  forget_keep_enabled (exit code s1) = forget_keep_enabled (exit code s2).
Proof.
  intros H. apply forget_fields in H as (Hpc & Hf & Hr & Hs & Ha & Hh & Ho & Hc).
  destruct (forget_config _ _ Hc) as (_ & _ & Hsc).
  unfold exit, cleanup. rewrite Ha, Hsc.
  destruct (atexit_cleanup s2) eqn:Ea, (script (config s2)) eqn:Es;
    same_but_keep_enabled.
Qed.

Variables argv1 argv2 : list getopt_t.
Hypothesis same_flow : parsed_flow argv1 heap_ok = parsed_flow argv2 heap_ok.
Hypothesis same_out : parsed_out argv1 heap_ok = parsed_out argv2 heap_ok.
Hypothesis same_config :
  set_keep_enabled (parsed_config argv1 heap_ok) 0 =
  set_keep_enabled (parsed_config argv2 heap_ok) 0.
Hypothesis supplied : script (parsed_config argv1 heap_ok) <> None.

Lemma forget_step (a : action) (s1 s2 : state) :
  invariant argv1 heap_ok hw0 s1 ->
  invariant argv2 heap_ok hw0 s2 ->
  forget_keep_enabled s1 = forget_keep_enabled s2 ->
  forget_keep_enabled (step argv1 heap_ok a s1) =
  forget_keep_enabled (step argv2 heap_ok a s2).
Proof.
  intros Inv Inv2 H.
  pose proof (forget_fields _ _ H) as (Hpc & Hf & Hr & Hs & Ha & Hh & Ho & Hc).
  destruct (forget_config _ _ Hc) as (Hchip & Hchan & Hsc).
  destruct a as [during | ]; cbn [step].
  - unfold main_step. rewrite <- Hpc.
    unfold invariant in Inv, Inv2. rewrite <- Hpc in Inv2.
    destruct (pc s1) as [ | | | | pwm | pwm cfg | pwm | | code] eqn:E.
    + (* line 292 *)
      subst s1 s2. cbn [config start].
      rewrite (surjective_pairing (parse_cli_args heap_ok argv1 config_init)).
      rewrite (surjective_pairing (fst (parse_cli_args heap_ok argv1 config_init))).
      rewrite (surjective_pairing (parse_cli_args heap_ok argv2 config_init)).
      rewrite (surjective_pairing (fst (parse_cli_args heap_ok argv2 config_init))).
      fold (parsed_flow argv1 heap_ok) (parsed_flow argv2 heap_ok)
           (parsed_config argv1 heap_ok) (parsed_config argv2 heap_ok)
           (parsed_out argv1 heap_ok) (parsed_out argv2 heap_ok).
      rewrite <- same_flow, <- same_out.
      assert (F : forget_keep_enabled
                    (emit (parsed_out argv1 heap_ok)
                       (set_config (parsed_config argv1 heap_ok) (start hw0)))
                  = forget_keep_enabled
                      (emit (parsed_out argv1 heap_ok)
                         (set_config (parsed_config argv2 heap_ok) (start hw0)))).
      { same_but_keep_enabled. }
      destruct (parsed_flow argv1 heap_ok) as [r | code].
      * destruct (r =? 0).
        -- same_but_keep_enabled.
        -- apply forget_exit. unfold forget_keep_enabled. cbn.
           now rewrite same_config.
      * now apply forget_exit.
    + same_but_keep_enabled.
    + same_but_keep_enabled.
    + (* line 301 *)
      rewrite <- Hchip, <- Hchan, <- Hh.
      destruct (pwm_open _ _ _ _) as [[r pwm] h].
      cbn [ret emit set_hw set_ret config].
      rewrite <- Hchip, <- Hchan.
      destruct (r =? PWM_E_OK).
      * same_but_keep_enabled.
      * apply forget_exit. same_but_keep_enabled.
    + (* lines 309-322 *)
      destruct Inv as (_ & Hcfg & _).
      rewrite (make_execute_config_supplied _ _ Hc) by (now rewrite Hcfg).
      same_but_keep_enabled.
    + (* line 324 *)
      rewrite <- Hf, <- Hh.
      destruct (pwm_execute _ _ _ _) as [[r pwm'] h].
      same_but_keep_enabled.
    + rewrite <- Hh. destruct (pwm_close _ _) as [p h].
      same_but_keep_enabled.
    + rewrite <- Hr. now apply forget_exit.
    + exact H.
  - unfold running. rewrite <- Hpc, <- Hs.
    destruct (match pc s1 with halted _ => false | _ => true end
              && sigint_handler s1); [ | exact H].
    same_but_keep_enabled.
Qed.

Lemma forget_run_from (sched : list action) (s1 s2 : state) :
  invariant argv1 heap_ok hw0 s1 ->
  invariant argv2 heap_ok hw0 s2 ->
  forget_keep_enabled s1 = forget_keep_enabled s2 ->
  forget_keep_enabled (run_from argv1 heap_ok s1 sched) =
  forget_keep_enabled (run_from argv2 heap_ok s2 sched).
Proof.
  revert s1 s2. induction sched as [ | a sched IH]; intros s1 s2 Inv Inv2 H.
  - exact H.
  - cbn. apply IH.
    + now apply invariant_step.
    + now apply invariant_step.
    + now apply forget_step.
Qed.

End KeepEnabled.

Section KeepEnabledClaim.

Context {api : Api}.
Variable heap_ok : string -> bool.
Variable hw0 : hw_t.

(** C2, as amended: [pwm_close] is called with the handle alone.  The
    configuration handed to the interpreter depends on [keep_enabled] only
    when no script is supplied; and when one is, two runs whose arguments
    differ in nothing but [keep_enabled] go, under the same schedule,
    through the same states but for that field: the same calls of the
    library with the same arguments, [pwm_close] included, the same output
    and the same exit code. *)
Theorem keep_enabled_only_selects_script :
  (forall c v,
     script c <> None ->
     make_execute_config (set_keep_enabled c v) = make_execute_config c) /\
  (forall argv1 argv2,
     parsed_flow argv1 heap_ok = parsed_flow argv2 heap_ok ->
     parsed_out argv1 heap_ok = parsed_out argv2 heap_ok ->
     set_keep_enabled (parsed_config argv1 heap_ok) 0 =
     set_keep_enabled (parsed_config argv2 heap_ok) 0 ->
     script (parsed_config argv1 heap_ok) <> None ->
     forall sched,
       forget_keep_enabled (run argv1 heap_ok hw0 sched) =
       forget_keep_enabled (run argv2 heap_ok hw0 sched)).
Proof.
  split.
  - intros c v H. apply make_execute_config_supplied; [reflexivity | exact H].
  - intros argv1 argv2 Hflow Hout Hcfg Hs sched. unfold run.
    apply (forget_run_from heap_ok hw0 argv1 argv2);
      auto using invariant_start.
Qed.

End KeepEnabledClaim.

End MainFacts.


(* ================================================================== *)
(** ** More about [parse_cli_args], [cleanup] and [main] *)

Module MoreFacts.
Import Libc Pwm Main MainFacts.

(** *** Arguments [strtoul] reads no number from, and negative ones *)

Lemma not_decimal_digit (c : ascii) :
  is_decimal_digit c = false ->
  Ascii.eqb c "0" = false /\ forall r acc, digits 10 (String c r) acc = acc.
Proof.
  intros H. split.
  - destruct (Ascii.eqb_spec c "0") as [-> | ]; [discriminate H | reflexivity].
  - intros r acc. cbn [digits].
    pose proof (LibcFacts.digit_of_decimal c) as D.
    destruct (digit_of c) as [d | ]; [ | reflexivity].
    destruct (d <? 10); [ | reflexivity].
    destruct D as [D _]. congruence.
Qed.

Lemma strtoul_no_number (s : string) :
  no_number s = true -> strtoul s 0 = 0 /\ strtoul s 10 = 0.
Proof.
  destruct s as [ | c r]; [split; reflexivity | ].
  unfold no_number. intros H.
  apply andb_true_iff in H as [H Hd]. apply andb_true_iff in H as [H Hp].
  apply andb_true_iff in H as [Hs Hm].
  apply negb_true_iff in Hs, Hm, Hp, Hd.
  destruct (not_decimal_digit c Hd) as [Hz Hdigits].
  unfold strtoul. cbn [skip_space]. rewrite Hs, Hm, Hp.
  split; destruct r as [ | x r]; rewrite ?Hz; cbn [andb Z.eqb orb];
    rewrite ?andb_false_r; cbv zeta; rewrite Hdigits; reflexivity.
Qed.

Lemma leading_digits_ge (s : string) (acc : Z) :
  0 <= acc -> acc <= fold_left (fun n d => 10 * n + d) (leading_digits s) acc.
Proof.
  revert acc. induction s as [ | c r IH]; intros acc H.
  - cbn. lia.
  - cbn [leading_digits]. destruct (is_decimal_digit c) eqn:E.
    + cbn [fold_left].
      unfold is_decimal_digit in E. apply andb_true_iff in E as [E _].
      apply Z.leb_le in E.
      specialize (IH (10 * acc + (code c - 48))). lia.
    + cbn. lia.
Qed.

(** After '-', a number that starts with a digit other than 0 is read in
    base 10 and negated modulo 2^64. *)
Lemma strtoul_negative (c : ascii) (r : string) :
  is_decimal_digit c = true -> c <> "0"%char ->
  decimal (leading_digits (String c r)) <= ULONG_MAX ->
  strtoul (String "-" (String c r)) 0 =
  to_ulong (- decimal (leading_digits (String c r))).
Proof.
  intros Hd Hz Hv.
  assert (Ez : Ascii.eqb c "0" = false)
    by (destruct (Ascii.eqb_spec c "0"); [contradiction | reflexivity]).
  set (P := fun bs : Z * string =>
              let '(base, s) := bs in
              if ULONG_MAX <? digits base s 0 then ULONG_MAX
              else to_ulong (- digits base s 0)).
  change (strtoul (String "-" (String c r)) 0)
    with (P match String c r with
            | String c0 (String x r0) =>
                if Ascii.eqb c0 "0" && is_x x && ((0 =? 0) || (0 =? 16))
                then (16, r0)
                else if 0 =? 0
                     then (if Ascii.eqb c0 "0" then 8 else 10, String c r)
                     else (0, String c r)
            | String c0 EmptyString =>
                if 0 =? 0
                then (if Ascii.eqb c0 "0" then 8 else 10, String c r)
                else (0, String c r)
            | EmptyString => if 0 =? 0 then (10, String c r)
                             else (0, String c r)
            end).
  unfold P.
  destruct r as [ | x r0]; rewrite Ez; cbn [andb Z.eqb]; cbv beta iota;
    rewrite LibcFacts.digits_decimal;
    match goal with
    | |- context [leading_digits ?s] => fold (decimal (leading_digits s))
    end;
    match goal with
    | |- context [ULONG_MAX <? ?v] => destruct (Z.ltb_spec ULONG_MAX v)
    end; (lia || reflexivity).
Qed.

Lemma to_uint_negative (v : Z) :
  0 < v < 2 ^ 32 -> to_uint (to_ulong (- v)) = 2 ^ 32 - v.
Proof.
  intros H. unfold to_uint, to_ulong.
  rewrite Z.mod_mod_divide by (exists (2 ^ 32); reflexivity).
  replace (- v) with ((2 ^ 32 - v) + (-1) * 2 ^ 32) by lia.
  rewrite Z.mod_add by lia. apply Z.mod_small. lia.
Qed.

Section Parsing.

Context {api : Api}.
Variable heap_ok : string -> bool.

(** An option that passes does what [update] says, and the loop goes on. *)
Lemma parse_update (o : getopt_t) (c : config_t) (argv' : list getopt_t) :
  passes heap_ok o = true ->
  parse_cli_args heap_ok (o :: argv') c =
  parse_cli_args heap_ok argv' (update o c).
Proof.
  unfold passes. destruct o as [ch arg]. cbn [opt optarg].
  destruct ch as [[] [] [] [] [] [] [] []]; intros H;
    try discriminate H;
    first [ reflexivity
          | rewrite parse_duty; reflexivity
          | cbn [parse_cli_args opt optarg]; unfold strdup; rewrite H;
            reflexivity ].
Qed.

(** An option that does not pass ends the loop whatever follows it. *)
Lemma parse_stop_tail (o : getopt_t) (c : config_t) (rest : list getopt_t) :
  passes heap_ok o = false ->
  parse_cli_args heap_ok (o :: rest) c = parse_cli_args heap_ok [o] c.
Proof.
  unfold passes. destruct o as [ch arg]. cbn [opt optarg].
  destruct ch as [[] [] [] [] [] [] [] []]; intros H;
    try discriminate H;
    first [ reflexivity
          | cbn [parse_cli_args opt optarg]; unfold strdup; rewrite H;
            reflexivity ].
Qed.

(** On options that all pass, [parse_cli_args] folds [update] over them. *)
Lemma parse_fold (argv : list getopt_t) (c : config_t) :
  forallb (passes heap_ok) argv = true ->
  parse_cli_args heap_ok argv c =
  (Return 0, fold_left (fun c o => update o c) argv c, []).
Proof.
  revert c. induction argv as [ | o argv IH]; intros c H.
  - reflexivity.
  - cbn [forallb] in H. apply andb_true_iff in H as [Ho Hrest].
    rewrite parse_update by exact Ho. cbn [fold_left]. now apply IH.
Qed.

Lemma update_config_of (argv : list getopt_t) (o : getopt_t) :
  update o (config_of argv) = config_of (argv ++ [o]).
Proof.
  unfold config_of, last_argument, supplied_script, keep_enabled_given,
    update.
  rewrite !fold_left_app, existsb_app. cbn [fold_left existsb].
  repeat match goal with
         | |- context [Ascii.eqb (opt o) ?ch] =>
             destruct (Ascii.eqb_spec (opt o) ch) as [E | ];
             [ try rewrite E; cbn; rewrite ?orb_false_r, ?orb_true_r;
               reflexivity | ]
         end.
  rewrite !orb_false_r. reflexivity.
Qed.

Lemma fold_update_config_of (argv : list getopt_t) :
  fold_left (fun c o => update o c) argv config_init = config_of argv.
Proof.
  induction argv as [ | o argv IH] using rev_ind.
  - reflexivity.
  - rewrite fold_left_app. cbn [fold_left]. rewrite IH.
    apply update_config_of.
Qed.

(** X1: on a command line whose options all pass, [parse_cli_args] returns
    0, prints nothing, and leaves in [config] every setting from the last
    occurrence of its option (a repeated option overrides the earlier one)
    or, without it, the default: chip 0, channel 0, 1000 Hz, 250 ms,
    [PWM_DUTY_DEFAULT], not kept enabled, no script. *)
Theorem parsed_configuration (argv : list getopt_t) :
  forallb (passes heap_ok) argv = true ->
  parse_cli_args heap_ok argv config_init = (Return 0, config_of argv, []).
Proof.
  intros H. rewrite parse_fold by exact H.
  now rewrite fold_update_config_of.
Qed.

Lemma update_commute (o1 o2 : getopt_t) (c : config_t) :
  opt o1 <> opt o2 ->
  update o1 (update o2 c) = update o2 (update o1 c).
Proof.
  intros N. unfold update.
  repeat match goal with
         | |- context [Ascii.eqb (opt ?o) ?ch] =>
             destruct (Ascii.eqb_spec (opt o) ch)
         end;
    try reflexivity; congruence.
Qed.

(** X2: two neighbouring options that pass and are not the same option
    may be swapped: [parse_cli_args] returns the same, whatever comes
    before and after them. *)
Theorem options_commute (pre rest : list getopt_t) (o1 o2 : getopt_t)
        (c : config_t) :
  passes heap_ok o1 = true -> passes heap_ok o2 = true ->
  opt o1 <> opt o2 ->
  parse_cli_args heap_ok (pre ++ o1 :: o2 :: rest) c =
  parse_cli_args heap_ok (pre ++ o2 :: o1 :: rest) c.
Proof.
  intros H1 H2 N. revert c. induction pre as [ | p pre IH]; intros c.
  - cbn [app]. rewrite !parse_update by assumption.
    now rewrite update_commute.
  - cbn [app]. destruct (passes heap_ok p) eqn:Hp.
    + rewrite !(parse_update p) by exact Hp. apply IH.
    + rewrite (parse_stop_tail p c (pre ++ o1 :: o2 :: rest)) by exact Hp.
      now rewrite (parse_stop_tail p c (pre ++ o2 :: o1 :: rest)) by exact Hp.
Qed.

(** X5: a numeric argument in which [strtoul] finds no number (the empty
    string, or one that starts with neither white space, a sign nor a
    digit) is not rejected: the setting becomes 0 and parsing goes on; for
    [--duty] it becomes 0, or the bare percent flag if the argument ends
    in '%'. *)
Theorem unreadable_number_is_zero (arg : string) (rest : list getopt_t)
        (c : config_t) :
  no_number arg = true ->
  parse_cli_args heap_ok ({| opt := "p"; optarg := arg |} :: rest) c =
    parse_cli_args heap_ok rest (set_chip c 0) /\
  parse_cli_args heap_ok ({| opt := "c"; optarg := arg |} :: rest) c =
    parse_cli_args heap_ok rest (set_channel c 0) /\
  parse_cli_args heap_ok ({| opt := "f"; optarg := arg |} :: rest) c =
    parse_cli_args heap_ok rest (set_frequency_hz c 0) /\
  parse_cli_args heap_ok ({| opt := "d"; optarg := arg |} :: rest) c =
    parse_cli_args heap_ok rest (set_duration_ms c 0) /\
  parse_cli_args heap_ok ({| opt := "D"; optarg := arg |} :: rest) c =
    parse_cli_args heap_ok rest
      (set_duty_val c
         (if ends_with_percent arg then to_uint PWM_DUTY_PERCENT_FLAG
          else 0)).
Proof.
  intros H. destruct (strtoul_no_number arg H) as [H0 H10].
  repeat split.
  - cbn [parse_cli_args opt optarg]. now rewrite H0.
  - cbn [parse_cli_args opt optarg]. now rewrite H0.
  - cbn [parse_cli_args opt optarg]. now rewrite H0.
  - cbn [parse_cli_args opt optarg]. now rewrite H0.
  - rewrite parse_duty. unfold duty_of_argument. rewrite H0, H10.
    change (to_uint 0) with 0. now rewrite Z.lor_0_r.
Qed.

(** X6: a negative numeric argument is not rejected either: "-n", for a
    decimal n from 1 to 2^32 - 1 without leading zero, sets the chip,
    channel, frequency or duration to 2^32 - n. *)
Theorem negative_number_wraps (ch : ascii) (r : string)
        (rest : list getopt_t) (c : config_t) :
  is_decimal_digit ch = true -> ch <> "0"%char ->
  decimal (leading_digits (String ch r)) < 2 ^ 32 ->
  let arg := String "-" (String ch r) in
  let n := decimal (leading_digits (String ch r)) in
  0 < n /\
  parse_cli_args heap_ok ({| opt := "p"; optarg := arg |} :: rest) c =
    parse_cli_args heap_ok rest (set_chip c (2 ^ 32 - n)) /\
  parse_cli_args heap_ok ({| opt := "c"; optarg := arg |} :: rest) c =
    parse_cli_args heap_ok rest (set_channel c (2 ^ 32 - n)) /\
  parse_cli_args heap_ok ({| opt := "f"; optarg := arg |} :: rest) c =
    parse_cli_args heap_ok rest (set_frequency_hz c (2 ^ 32 - n)) /\
  parse_cli_args heap_ok ({| opt := "d"; optarg := arg |} :: rest) c =
    parse_cli_args heap_ok rest (set_duration_ms c (2 ^ 32 - n)).
Proof.
  intros Hd Hz Hlt arg n.
  assert (Hpos : 0 < n).
  { unfold n, decimal. cbn [leading_digits]. rewrite Hd. cbn [fold_left].
    assert (Hc : 1 <= code ch - 48).
    { unfold is_decimal_digit in Hd. apply andb_true_iff in Hd as [Hd _].
      apply Z.leb_le in Hd.
      destruct (Z.eq_dec (code ch) 48) as [E | ]; [ | lia].
      contradiction Hz. unfold code in E.
      apply (f_equal Z.to_N) in E. rewrite N2Z.id in E.
      apply (f_equal ascii_of_N) in E. rewrite ascii_N_embedding in E.
      exact E. }
    pose proof (leading_digits_ge r (10 * 0 + (code ch - 48))). lia. }
  assert (E : to_uint (strtoul arg 0) = 2 ^ 32 - n).
  { unfold arg. rewrite strtoul_negative; [ | assumption | assumption | ].
    - apply to_uint_negative. fold n. lia.
    - fold n. unfold ULONG_MAX. lia. }
  split; [exact Hpos | ].
  repeat split; cbn [parse_cli_args opt optarg]; now rewrite E.
Qed.

(** What follows the first option that does not pass is never looked at. *)
Lemma parse_ignores_tail (pre rest : list getopt_t) (o : getopt_t)
      (c : config_t) :
  passes heap_ok o = false ->
  parse_cli_args heap_ok (pre ++ o :: rest) c =
  parse_cli_args heap_ok (pre ++ [o]) c.
Proof.
  intros Ho. revert c. induction pre as [ | p pre IH]; intros c.
  - cbn [app]. now apply parse_stop_tail.
  - cbn [app]. destruct (passes heap_ok p) eqn:Hp.
    + rewrite !(parse_update p) by exact Hp. apply IH.
    + rewrite (parse_stop_tail p c (pre ++ o :: rest)) by exact Hp.
      now rewrite (parse_stop_tail p c (pre ++ [o])) by exact Hp.
Qed.

End Parsing.

Section Traces.

Context {api : Api}.
Variable argv : list getopt_t.
Variable heap_ok : string -> bool.
Variable hw0 : hw_t.

(** [exit] runs [cleanup] if it is registered, and nothing else. *)
Lemma exit_trace (code : Z) (s : state) :
  out (exit code s) =
    out s ++ (if atexit_cleanup s then frees (config s) else []) /\
  atexit_cleanup (exit code s) = atexit_cleanup s /\
  sigint_handler (exit code s) = sigint_handler s.
Proof.
  unfold exit, cleanup, frees.
  destruct (atexit_cleanup s) eqn:E, (script (config s)); cbn;
    rewrite ?app_nil_r; auto.
Qed.

Lemma trace_invariant_statement (during : list nat) (s : state) :
  invariant argv heap_ok hw0 s ->
  trace_invariant argv heap_ok hw0 s ->
  trace_invariant argv heap_ok hw0 (main_step argv heap_ok during s).
Proof.
  unfold invariant, trace_invariant at 1, main_step.
  destruct (pc s) as [ | | | | pwm | pwm cfg | pwm | | code] eqn:Hpc.
  - (* line 292 *)
    intros _ ->. cbn [config start].
    unfold trace_invariant, parsed_flow, parsed_out.
    destruct (parse_outcome heap_ok argv config_init)
      as [(_ & Hflow & Hout) | (o & c' & _ & Hstop)].
    + destruct (parse_cli_args heap_ok argv config_init) as [[r c] evs].
      cbn [fst snd] in *. subst r evs. cbn. auto.
    + apply stops_flow in Hstop as (_ & Hflow & _ & Hshape).
      destruct (parse_cli_args heap_ok argv config_init) as [[r c] evs].
      cbn [fst snd] in *.
      destruct r as [r | code].
      * destruct Hshape as (_ & -> & ->). cbn. left. auto.
      * rewrite exit_pc. left.
        destruct (exit_trace code (emit evs (set_config c (start hw0))))
          as (-> & -> & ->).
        cbn. rewrite !app_nil_r. auto.
  - (* line 297 *)
    intros _ (Hout & Ha & Hs). unfold trace_invariant. cbn.
    rewrite Hout, Hs. auto.
  - (* line 299 *)
    intros _ (Hout & Ha & Hs). unfold trace_invariant. cbn.
    rewrite Hout, Ha. auto.
  - (* line 301 *)
    intros (Hflow & Hcfg & Hhw & _) (Hout & Ha & Hs).
    rewrite Hcfg, Hhw.
    change (pwm_open _ _ _ hw0) with (opened argv heap_ok hw0).
    destruct (opened argv heap_ok hw0) as [[r pwm] h] eqn:Hopen.
    cbn [ret emit set_hw set_ret config].
    destruct (Z.eqb_spec r PWM_E_OK) as [-> | Hr].
    + unfold trace_invariant. cbn. rewrite Hout. auto.
    + unfold trace_invariant. rewrite exit_pc. right; left.
      match goal with
      | |- context [exit r ?s'] =>
          destruct (exit_trace r s') as (-> & -> & ->)
      end.
      cbn. rewrite Hout, Ha, Hs, Hcfg, Hopen. cbn. auto 6.
  - (* lines 309-322 *)
    intros _ H. unfold trace_invariant. cbn. exact H.
  - (* line 324 *)
    intros (_ & _ & _ & -> & _) (Hout & Ha & Hs).
    destruct (pwm_execute _ _ _ _) as [[r pwm'] h].
    unfold trace_invariant. cbn. rewrite Hout. split; [ | auto].
    now exists pwm.
  - (* line 326 *)
    intros _ ((pwm0 & Hout) & Ha & Hs).
    destruct (pwm_close _ _) as [p h].
    unfold trace_invariant. cbn. rewrite Hout. split; [ | auto].
    now exists pwm0, pwm.
  - (* line 328 *)
    intros (Hflow & Hcfg & p0 & p1 & h1 & Hex & _)
           ((pwm0 & pwm1 & Hout) & Ha & Hs).
    unfold trace_invariant. rewrite exit_pc. right; right.
    destruct (exit_trace (ret s) s) as (-> & -> & ->).
    rewrite Ha, Hcfg, Hout. split; [exact Hflow | ]. split.
    + destruct Hex as (h0 & d & f & -> & _). reflexivity.
    + split; [ | auto]. now exists pwm0, pwm1.
  - (* the process is gone *)
    intros _ H. unfold trace_invariant. rewrite Hpc. exact H.
Qed.

Lemma trace_invariant_step (a : action) (s : state) :
  invariant argv heap_ok hw0 s ->
  trace_invariant argv heap_ok hw0 s ->
  trace_invariant argv heap_ok hw0 (step argv heap_ok a s).
Proof.
  destruct a as [during | ].
  - apply trace_invariant_statement.
  - intros _. unfold step.
    destruct (running s && sigint_handler s) eqn:E; [ | auto].
    apply andb_true_iff in E as [_ E].
    unfold trace_invariant.
    destruct (pc s) eqn:Hpc; cbn; rewrite Hpc; auto.
    intros ->. discriminate E.
Qed.

Lemma trace_invariant_run_from (sched : list action) (s : state) :
  invariant argv heap_ok hw0 s ->
  trace_invariant argv heap_ok hw0 s ->
  trace_invariant argv heap_ok hw0 (run_from argv heap_ok s sched).
Proof.
  revert s. induction sched as [ | a sched IH]; intros s I T.
  - exact T.
  - cbn. apply IH.
    + now apply invariant_step.
    + now apply trace_invariant_step.
Qed.

(** Every state of every run has put out what [trace_invariant] says. *)
Lemma trace_invariant_run (sched : list action) :
  trace_invariant argv heap_ok hw0 (run argv heap_ok hw0 sched).
Proof.
  apply trace_invariant_run_from.
  - apply invariant_start.
  - reflexivity.
Qed.

(** After a successful parse, [config] is what the command line stands
    for. *)
Lemma parsed_config_of :
  parsed_flow argv heap_ok = Return 0 ->
  parsed_config argv heap_ok = config_of argv.
Proof.
  intros H. unfold parsed_config.
  rewrite (parse_fold heap_ok argv config_init (parsed_all_pass argv heap_ok H)).
  apply fold_update_config_of.
Qed.

Lemma parsed_out_no_free :
  filter is_free (parsed_out argv heap_ok) = [].
Proof.
  unfold parsed_out.
  destruct (parse_outcome heap_ok argv config_init)
    as [(_ & _ & ->) | (o & c' & _ & Hstop)]; [reflexivity | ].
  destruct Hstop; reflexivity.
Qed.

Lemma frees_free (c : config_t) : filter is_free (frees c) = frees c.
Proof. unfold frees. destruct (script c); reflexivity. Qed.


(** X7: the PWM library is never called before [cleanup] is registered
    and [handle_signal] is installed: whenever a call of the library is
    among the events, both are in place, and the events start with the
    two registrations. *)
Theorem handlers_before_library (sched : list action) (e : event) :
  In e (out (run argv heap_ok hw0 sched)) ->
  is_pwm_call e = true ->
  sigint_handler (run argv heap_ok hw0 sched) = true /\
  atexit_cleanup (run argv heap_ok hw0 sched) = true /\
  exists rest,
    out (run argv heap_ok hw0 sched) = Ev_atexit :: Ev_signal SIGINT :: rest.
Proof.
  intros Hin Hcall.
  pose proof (invariant_run argv heap_ok hw0 sched) as Inv.
  pose proof (trace_invariant_run sched) as Tr.
  unfold invariant in Inv. unfold trace_invariant in Tr.
  destruct (pc (run argv heap_ok hw0 sched)) eqn:Hpc.
  - rewrite Tr in Hin. destruct Hin.
  - destruct Tr as (Hout & _). rewrite Hout in Hin. destruct Hin.
  - destruct Tr as (Hout & _). rewrite Hout in Hin.
    destruct Hin as [<- | []]. discriminate Hcall.
  - destruct Tr as (Hout & _). rewrite Hout in Hin.
    destruct Hin as [<- | [<- | []]]; discriminate Hcall.
  - destruct Tr as (-> & -> & ->). eauto.
  - destruct Tr as (-> & -> & ->). eauto.
  - destruct Tr as ((p0 & ->) & -> & ->). eauto.
  - destruct Tr as ((p0 & p1 & ->) & -> & ->). eauto.
  - destruct Tr as [(Hflow & _) | [(_ & _ & _ & -> & -> & ->)
                   | (_ & _ & (p0 & p1 & ->) & -> & ->)]].
    + destruct Inv as [(_ & Hcalls & _) | [(F & _) | (F & _)]];
        [ | contradiction | contradiction].
      apply in_pwm_calls in Hin; [ | exact Hcall].
      rewrite Hcalls in Hin. destruct Hin.
    + cbn [app]. eauto.
    + cbn [app]. eauto.
Qed.

(** X8: when the arguments parse and [pwm_open] fails, the run puts out,
    in this order and nothing else: the two registrations, the call of
    [pwm_open], the message with the channel, the chip and the text of the
    status, and the release of the script copy if a script was supplied;
    it exits with the status of [pwm_open] and calls neither
    [pwm_execute] nor [pwm_close]. *)
Theorem open_failure_trace (sched : list action) (code : Z) :
  parsed_flow argv heap_ok = Return 0 ->
  fst (fst (opened argv heap_ok hw0)) <> PWM_E_OK ->
  pc (run argv heap_ok hw0 sched) = halted code ->
  code = fst (fst (opened argv heap_ok hw0)) /\
  out (run argv heap_ok hw0 sched) =
    [Ev_atexit; Ev_signal SIGINT; call_open argv heap_ok code;
     cant_open argv heap_ok code]
    ++ match supplied_script argv with
       | Some p => [Ev_free p]
       | None => []
       end.
Proof.
  intros Hflow Hopen Hpc.
  pose proof (trace_invariant_run sched) as Tr.
  unfold trace_invariant in Tr. rewrite Hpc in Tr.
  destruct Tr as [(F & _) | [(_ & _ & Hcode & Hout & _) | (_ & F & _)]];
    [contradiction | | contradiction].
  split; [exact Hcode | ].
  rewrite Hout, (parsed_config_of Hflow). reflexivity.
Qed.

(** X9: when the arguments parse and [pwm_open] succeeds, a run that has
    come to its exit has put out, in this order and nothing else: the two
    registrations, the calls of [pwm_open], [pwm_execute] and
    [pwm_close], and the release of the script copy if a script was
    supplied. *)
Theorem complete_run_trace (sched : list action) (code : Z) :
  parsed_flow argv heap_ok = Return 0 ->
  fst (fst (opened argv heap_ok hw0)) = PWM_E_OK ->
  pc (run argv heap_ok hw0 sched) = halted code ->
  exists pwm0 pwm1,
    out (run argv heap_ok hw0 sched) =
      [Ev_atexit; Ev_signal SIGINT; call_open argv heap_ok PWM_E_OK;
       call_execute argv heap_ok pwm0 code; Ev_pwm_close pwm1]
      ++ match supplied_script argv with
         | Some p => [Ev_free p]
         | None => []
         end.
Proof.
  intros Hflow Hopen Hpc.
  pose proof (trace_invariant_run sched) as Tr.
  unfold trace_invariant in Tr. rewrite Hpc in Tr.
  destruct Tr as [(F & _) | [(_ & Hne & Hcode & _)
                 | (_ & _ & (pwm0 & pwm1 & Hout) & _)]].
  - contradiction.
  - rewrite Hcode in Hne. contradiction.
  - exists pwm0, pwm1. rewrite Hout, (parsed_config_of Hflow). reflexivity.
Qed.

(** X10: [cleanup] releases the script copy at most once, and only at the
    exit of a run in which it was registered: while the program runs no
    release is among the events, and at the exit there is exactly one if a
    script was supplied, of the argument of the last [--script], and none
    otherwise (the default scripts are never released). *)
Theorem script_freed_once (sched : list action) :
  filter is_free (out (run argv heap_ok hw0 sched)) =
  if running (run argv heap_ok hw0 sched) then []
  else if atexit_cleanup (run argv heap_ok hw0 sched)
       then match supplied_script argv with
            | Some p => [Ev_free p]
            | None => []
            end
       else [].
Proof.
  pose proof (trace_invariant_run sched) as Tr.
  unfold trace_invariant in Tr. unfold running.
  destruct (pc (run argv heap_ok hw0 sched)) eqn:Hpc.
  - rewrite Tr. reflexivity.
  - destruct Tr as (-> & _). reflexivity.
  - destruct Tr as (-> & _). reflexivity.
  - destruct Tr as (-> & _). reflexivity.
  - destruct Tr as (-> & _). reflexivity.
  - destruct Tr as (-> & _). reflexivity.
  - destruct Tr as ((p0 & ->) & _). reflexivity.
  - destruct Tr as ((p0 & p1 & ->) & _). reflexivity.
  - destruct Tr as [(_ & -> & -> & _)
                   | [(Hflow & _ & _ & -> & -> & _)
                   | (Hflow & _ & (p0 & p1 & ->) & -> & _)]].
    + rewrite filter_app, parsed_out_no_free.
      destruct (parsed_flow argv heap_ok); reflexivity.
    + rewrite filter_app, frees_free, (parsed_config_of Hflow). reflexivity.
    + rewrite filter_app, frees_free, (parsed_config_of Hflow). reflexivity.
Qed.

(** Any call of [pwm_open] among the events is the one of line 301. *)
Lemma open_event (sched : list action) (c ch f : Z) (r : pwm_status_t) :
  In (Ev_pwm_open c ch f r) (out (run argv heap_ok hw0 sched)) ->
  parsed_flow argv heap_ok = Return 0 /\
  Ev_pwm_open c ch f r = call_open argv heap_ok r.
Proof.
  intros Hin. apply in_pwm_calls in Hin; [ | reflexivity].
  pose proof (invariant_run argv heap_ok hw0 sched) as Inv.
  unfold invariant in Inv.
  assert (Hfirst : forall r' more,
            (forall e, In e more -> forall c0 ch0 f0 r0,
                                      e <> Ev_pwm_open c0 ch0 f0 r0) ->
            In (Ev_pwm_open c ch f r) (call_open argv heap_ok r' :: more) ->
            Ev_pwm_open c ch f r = call_open argv heap_ok r).
  { intros r' more Hmore [H | H].
    - rewrite <- H. unfold call_open in *. congruence.
    - exfalso. exact (Hmore _ H _ _ _ _ eq_refl). }
  destruct (pc (run argv heap_ok hw0 sched)) eqn:Hpc.
  - rewrite Inv in Hin. destruct Hin.
  - destruct Inv as (_ & _ & _ & E). rewrite E in Hin. destruct Hin.
  - destruct Inv as (_ & _ & _ & E). rewrite E in Hin. destruct Hin.
  - destruct Inv as (_ & _ & _ & E). rewrite E in Hin. destruct Hin.
  - destruct Inv as (Hflow & _ & _ & E). rewrite E in Hin.
    split; [exact Hflow | ]. apply Hfirst in Hin; [exact Hin | intros e []].
  - destruct Inv as (Hflow & _ & _ & _ & E). rewrite E in Hin.
    split; [exact Hflow | ]. apply Hfirst in Hin; [exact Hin | intros e []].
  - destruct Inv as (Hflow & _ & p0 & _ & E). rewrite E in Hin.
    split; [exact Hflow | ]. apply Hfirst in Hin; [exact Hin | ].
    intros e [<- | []]; discriminate.
  - destruct Inv as (Hflow & _ & p0 & p1 & h1 & _ & E). rewrite E in Hin.
    split; [exact Hflow | ]. apply Hfirst in Hin; [exact Hin | ].
    intros e [<- | [<- | []]]; discriminate.
  - destruct Inv as [(_ & E & _) | [(Hflow & _ & r' & p & h & _ & _ & _ & E)
                    | (Hflow & _ & p0 & p1 & h1 & _ & E)]].
    + rewrite E in Hin. destruct Hin.
    + rewrite E in Hin. split; [exact Hflow | ].
      apply Hfirst in Hin; [exact Hin | intros e []].
    + rewrite E in Hin. split; [exact Hflow | ].
      apply Hfirst in Hin; [exact Hin | ].
      intros e [<- | [<- | []]]; discriminate.
Qed.

(** X11: [pwm_open] is only ever called for the chip of the last [--chip]
    (chip 0 without one) and the channel of the last [--channel] (channel
    0 without one), each read by [strtoul] in base 0 and converted to
    [unsigned int], and with the flag [PWM_FLAG_EXPORT]. *)
Theorem open_arguments (sched : list action) (c ch f : Z)
        (r : pwm_status_t) :
  In (Ev_pwm_open c ch f r) (out (run argv heap_ok hw0 sched)) ->
  c = number_or DEFAULT_PWM_CHIP (last_argument "p" argv) /\
  ch = number_or DEFAULT_PWM_CHANNEL (last_argument "c" argv) /\
  f = PWM_FLAG_EXPORT.
Proof.
  intros Hin. apply open_event in Hin as [Hflow E].
  unfold call_open in E. rewrite (parsed_config_of Hflow) in E.
  injection E as -> -> ->. repeat split.
Qed.

(** X12: the configuration [pwm_execute] is called with has the frequency
    of the last [--frequency] (1000 Hz without one), the duration of the
    last [--duration] (250 ms without one), the duty of the last [--duty]
    ([PWM_DUTY_DEFAULT] without one), the address of [exit_flag] as its
    stop flag, and a script that is not NULL. *)
Theorem execute_configuration (sched : list action) (pwm : pwm_t)
        (cfg : pwm_execute_config_t) (r : pwm_status_t) :
  In (Ev_pwm_execute pwm cfg r) (out (run argv heap_ok hw0 sched)) ->
  default_frequency_hz cfg =
    number_or DEFAULT_PWM_FREQUENCY_HZ (last_argument "f" argv) /\
  default_duration_ms cfg =
    number_or DEFAULT_PWM_DURATION_MS (last_argument "d" argv) /\
  default_duty_val cfg =
    match last_argument "D" argv with
    | Some a => duty_of_argument a
    | None => to_uint PWM_DUTY_DEFAULT
    end /\
  stop_flag cfg = addr_exit_flag /\
  Pwm.script cfg <> None.
Proof.
  intros Hin.
  apply (execute_event argv heap_ok hw0) in Hin as (Hflow & _ & -> & _).
  rewrite (parsed_config_of Hflow). unfold make_execute_config.
  destruct (script (config_of argv)); cbn; repeat split; try discriminate.
  destruct (if keep_enabled_given argv then 1 else 0) eqn:E;
    cbn; discriminate.
Qed.

End Traces.

Section Tail.

Context {api : Api}.
Variable heap_ok : string -> bool.
Variable hw0 : hw_t.

Lemma main_step_same_parse (argv1 argv2 : list getopt_t) :
  (forall c, parse_cli_args heap_ok argv1 c = parse_cli_args heap_ok argv2 c) ->
  forall sched s,
    run_from argv1 heap_ok s sched = run_from argv2 heap_ok s sched.
Proof.
  intros H sched. induction sched as [ | a sched IH]; intros s.
  - reflexivity.
  - unfold run_from in *. cbn [fold_left]. rewrite IH. f_equal.
    destruct a as [during | ]; [ | reflexivity].
    cbn [step]. unfold main_step. destruct (pc s); try reflexivity.
    now rewrite H.
Qed.

(** X3: what follows the first option that does not pass has no effect on
    the run: under every schedule the program goes through the same
    states, with the same output and the same exit code, as if the
    command line ended there. *)
Theorem options_after_stop_ignored (pre rest : list getopt_t) (o : getopt_t)
        (sched : list action) :
  passes heap_ok o = false ->
  run (pre ++ o :: rest) heap_ok hw0 sched =
  run (pre ++ [o]) heap_ok hw0 sched.
Proof.
  intros Ho. unfold run. apply main_step_same_parse.
  intros c. now apply parse_ignores_tail.
Qed.

End Tail.

End MoreFacts.

(* ================================================================== *)
(** ** The claims on concrete runs *)

Module Runs.
Import Libc Pwm Main Sim MainFacts.

Ltac in_events := vm_compute; repeat (first [ left; reflexivity | right ]).

(** The run on no arguments, the library answering 0 throughout. *)
Example default_run :
  let s := run (api := api 0 0) [] heap [] all_statements in
  pc s = halted 0 /\
  out s =
    [Ev_atexit; Ev_signal SIGINT; Ev_pwm_open 0 0 1 0;
     Ev_pwm_execute (api := api 0 0) (0, 0)
       (config_for "fdu" (Z.lor (2 ^ 31) 50)) 0;
     Ev_pwm_close (api := api 0 0) (0, 0)] /\
  exit_flag s = 0.
Proof. repeat split. Qed.

(** SIGINT while [pwm_execute] runs: the flag is up from then on. *)
Example interrupted_run :
  map exit_flag
    (states_from (api := api 0 0) [] heap (start (api := api 0 0) [])
       [Statement []; Statement []; Statement []; Statement [];
        Statement []; Statement [2%nat]; Statement []; Statement []])
  = [0; 0; 0; 0; 0; 0; 1; 1; 1].
Proof. reflexivity. Qed.

Lemma script_passed_witness :
  In (Ev_pwm_execute (api := api 0 0) (0, 0) (config_for "fduk" (Z.lor (2 ^ 31) 50)) 0)
     (out (run (api := api 0 0) [flag "k"] heap [] all_statements)) /\
  Pwm.script (config_for "fduk" (Z.lor (2 ^ 31) 50)) = Some "fduk"%string.
Proof.
  assert (H : In (Ev_pwm_execute (api := api 0 0) (0, 0)
                    (config_for "fduk" (Z.lor (2 ^ 31) 50)) 0)
                 (out (run (api := api 0 0) [flag "k"] heap []
                         all_statements)))
    by in_events.
  split; [exact H | ].
  exact (proj2 (script_passed (api := api 0 0) [flag "k"] heap []
                  all_statements (0, 0)
                  (config_for "fduk" (Z.lor (2 ^ 31) 50)) 0 H)).
Defined.

Lemma exit_code_witness :
  pc (run (api := api 0 7) [] heap [] all_statements) = halted 7 /\
  7 = 7 /\ (7 = PWM_E_OK -> 7 = 0).
Proof.
  split; [reflexivity | ].
  apply (proj1 (exit_code (api := api 0 7) [] heap [] all_statements 7
                  eq_refl)
           (0, 0) (config_for "fdu" (Z.lor (2 ^ 31) 50)) 7).
  in_events.
Defined.

(** C4, as stated, fails: the arguments are valid, [pwm_open] answers
    -19, and the run exits without executing or closing. *)
Lemma main_sequence_open_fails :
  parsed_flow (api := api (-19) 0) [] heap = Return 0 /\
  ~ performs_sequence (api := api (-19) 0) [] heap [].
Proof.
  split; [reflexivity | ].
  intros H. destruct (H all_statements (-19) eq_refl) as (p0 & p1 & r & E & _).
  vm_compute in E. discriminate E.
Qed.

Lemma main_sequence_witness :
  parsed_flow (api := api 0 7) [flag "k"] heap = Return 0 /\
  fst (fst (opened (api := api 0 7) [flag "k"] heap [])) = PWM_E_OK /\
  performs_sequence (api := api 0 7) [flag "k"] heap [].
Proof.
  split; [reflexivity | ]. split; [reflexivity | ].
  exact (proj1 (main_sequence (api := api 0 7) [flag "k"] heap []
                  eq_refl eq_refl)).
Defined.

(** C10, as stated, fails: [--help] before the invalid option exits
    with 0. *)
Lemma invalid_option_after_help :
  In "?"%char (map opt [flag "h"; flag "?"]) /\
  ~ rejects_arguments (api := api 0 0) [flag "h"; flag "?"] heap [].
Proof.
  split; [right; left; reflexivity | ].
  intros H. destruct (H all_statements 0 eq_refl) as (E & _).
  discriminate E.
Qed.

Lemma invalid_option_witness :
  In "?"%char (map opt [flag "k"; flag "?"]) /\
  rejects_arguments (api := api 0 0) [flag "k"; flag "?"] heap [].
Proof.
  assert (H : In "?"%char (map opt [flag "k"; flag "?"]))
    by (right; left; reflexivity).
  split; [exact H | ].
  exact (proj2 (proj2 (invalid_option (api := api 0 0)
                         [flag "k"; flag "?"] heap [] H))
           [flag "k"] (flag "?") [] eq_refl eq_refl eq_refl).
Defined.

Lemma exit_flag_monotone_witness :
  read_flag addr_exit_flag [1; 3]%nat 0 3 = 1 /\
  read_flag addr_exit_flag [1; 3]%nat 0 5 = 1.
Proof.
  split; [reflexivity | ].
  apply (proj2 (proj2 (proj2 (exit_flag_monotone (api := api 0 0)
                                [] heap [])))
           addr_exit_flag [1; 3]%nat 0 3%nat 5%nat).
  - lia.
  - reflexivity.
Defined.

Lemma stop_before_first_step_witness :
  Core.stop_flag stopped_config 0%nat = true /\
  fst (interpret stopped_config) = Core.Interrupted.
Proof.
  split; [reflexivity | ].
  exact (proj1 (proj1 (stop_before_first_step (api := api 0 0) [] heap []
                         journal (fun _ => 1000000%N) (write "period")
                         (write "duty_cycle") (write "enable" 1)
                         stopped_config [] eq_refl))).
Defined.


(** C2, as stated, fails: with the same script supplied, the run with
    [--keep-enabled] and the run without make the same call of
    [pwm_close], so the flag cannot be read off the call. *)
Lemma close_not_told_keep_enabled :
  ~ exists flag_of,
      close_receives_keep_enabled (api := api 0 0)
        [o "s" "fdu"; flag "k"] heap [] flag_of /\
      close_receives_keep_enabled (api := api 0 0)
        [o "s" "fdu"] heap [] flag_of.
Proof.
  intros (flag_of & H1 & H2).
  specialize (H1 all_statements (0, 0)).
  specialize (H2 all_statements (0, 0)).
  assert (E1 : flag_of (Ev_pwm_close (api := api 0 0) (0, 0)) = 1) by (apply H1; in_events).
  assert (E2 : flag_of (Ev_pwm_close (api := api 0 0) (0, 0)) = 0) by (apply H2; in_events).
  rewrite E1 in E2. discriminate E2.
Qed.

Lemma keep_enabled_only_selects_script_witness :
  script (parsed_config (api := api 0 0) [o "s" "fdu"; flag "k"] heap)
  <> None /\
  forget_keep_enabled
    (run (api := api 0 0) [o "s" "fdu"; flag "k"] heap [] all_statements) =
  forget_keep_enabled
    (run (api := api 0 0) [o "s" "fdu"] heap [] all_statements).
Proof.
  assert (H : script (parsed_config (api := api 0 0)
                        [o "s" "fdu"; flag "k"] heap) <> None)
    by discriminate.
  split; [exact H | ].
  exact (proj2 (keep_enabled_only_selects_script (api := api 0 0) heap [])
           [o "s" "fdu"; flag "k"] [o "s" "fdu"] eq_refl eq_refl eq_refl H
           all_statements).
Defined.

End Runs.

(* ================================================================== *)
(** ** More runs on concrete inputs *)

Module MoreRuns.
Import Libc Pwm Main Sim MainFacts MoreFacts.

Ltac in_out := vm_compute; repeat (first [ left; reflexivity | right ]).

Lemma parsed_configuration_witness :
  forallb (passes heap)
    [o "f" "2000"; flag "k"; o "f" "0x10"; o "s" "fD"] = true /\
  parse_cli_args (api := api 0 0) heap
    [o "f" "2000"; flag "k"; o "f" "0x10"; o "s" "fD"]
    (config_init (api := api 0 0)) =
  (Return 0,
   {| chip := 0; channel := 0; frequency_hz := 16; duration_ms := 250;
      duty_val := 2147483698; keep_enabled := 1;
      script := Some "fD"%string |},
   []).
Proof.
  split; [reflexivity | ].
  exact (parsed_configuration (api := api 0 0) heap
           [o "f" "2000"; flag "k"; o "f" "0x10"; o "s" "fD"] eq_refl).
Defined.

Lemma options_commute_witness :
  parse_cli_args (api := api 0 0) heap
    [o "f" "2000"; flag "k"] (config_init (api := api 0 0)) =
  parse_cli_args (api := api 0 0) heap
    [flag "k"; o "f" "2000"] (config_init (api := api 0 0)).
Proof.
  apply (options_commute (api := api 0 0) heap [] [] (o "f" "2000")
           (flag "k") (config_init (api := api 0 0)) eq_refl eq_refl).
  discriminate.
Defined.

Lemma options_after_stop_ignored_witness :
  passes heap (flag "h") = false /\
  run (api := api 0 0) ([flag "k"] ++ flag "h" :: [flag "?"; o "p" "3"])
    heap [] all_statements =
  run (api := api 0 0) ([flag "k"] ++ [flag "h"]) heap [] all_statements.
Proof.
  split; [reflexivity | ].
  exact (options_after_stop_ignored (api := api 0 0) heap [] [flag "k"]
           [flag "?"; o "p" "3"] (flag "h") all_statements eq_refl).
Defined.


Lemma unreadable_number_is_zero_witness :
  no_number "abc" = true /\
  parse_cli_args (api := api 0 0) heap [o "f" "abc"]
    (config_init (api := api 0 0)) =
  parse_cli_args (api := api 0 0) heap []
    (set_frequency_hz (config_init (api := api 0 0)) 0).
Proof.
  split; [reflexivity | ].
  exact (proj1 (proj2 (proj2
           (unreadable_number_is_zero (api := api 0 0) heap "abc" []
              (config_init (api := api 0 0)) eq_refl)))).
Defined.

Lemma negative_number_wraps_witness :
  decimal (leading_digits "5") < 2 ^ 32 /\
  parse_cli_args (api := api 0 0) heap [o "p" "-5"]
    (config_init (api := api 0 0)) =
  parse_cli_args (api := api 0 0) heap []
    (set_chip (config_init (api := api 0 0)) 4294967291).
Proof.
  assert (H : decimal (leading_digits "5") < 2 ^ 32) by (vm_compute; reflexivity).
  split; [exact H | ].
  refine (proj1 (proj2
            (negative_number_wraps (api := api 0 0) heap "5" EmptyString []
               (config_init (api := api 0 0)) eq_refl _ H))).
  discriminate.
Defined.

Lemma handlers_before_library_witness :
  In (Ev_pwm_close (api := api 0 0) (0, 0))
     (out (run (api := api 0 0) [] heap [] all_statements)) /\
  sigint_handler (run (api := api 0 0) [] heap [] all_statements) = true /\
  atexit_cleanup (run (api := api 0 0) [] heap [] all_statements) = true.
Proof.
  assert (H : In (Ev_pwm_close (api := api 0 0) (0, 0))
                 (out (run (api := api 0 0) [] heap [] all_statements)))
    by in_out.
  split; [exact H | ].
  destruct (handlers_before_library (api := api 0 0) [] heap []
              all_statements _ H eq_refl) as (Hs & Ha & _).
  split; assumption.
Defined.

Lemma open_failure_trace_witness :
  pc (run (api := api (-19) 0) [o "s" "fdu"] heap [] all_statements)
  = halted (-19) /\
  out (run (api := api (-19) 0) [o "s" "fdu"] heap [] all_statements) =
  [Ev_atexit; Ev_signal SIGINT; Ev_pwm_open 0 0 1 (-19);
   Ev_cant_open 0 0 "status"; Ev_free "fdu"].
Proof.
  split; [reflexivity | ].
  refine (proj2 (open_failure_trace (api := api (-19) 0) [o "s" "fdu"] heap
                   [] all_statements (-19) eq_refl _ eq_refl)).
  discriminate.
Defined.

Lemma complete_run_trace_witness :
  pc (run (api := api 0 7) [o "s" "fD"] heap [] all_statements) = halted 7 /\
  exists pwm0 pwm1,
    out (run (api := api 0 7) [o "s" "fD"] heap [] all_statements) =
    [Ev_atexit; Ev_signal SIGINT; Ev_pwm_open 0 0 1 0;
     Ev_pwm_execute (api := api 0 7) pwm0
       (config_for "fD" (Z.lor (2 ^ 31) 50)) 7;
     Ev_pwm_close (api := api 0 7) pwm1; Ev_free "fD"].
Proof.
  split; [reflexivity | ].
  exact (complete_run_trace (api := api 0 7) [o "s" "fD"] heap []
           all_statements 7 eq_refl eq_refl eq_refl).
Defined.

Lemma open_arguments_witness :
  In (Ev_pwm_open (api := api 0 0) 2 1 1 0)
     (out (run (api := api 0 0) [o "p" "2"; o "c" "0x1"] heap []
             all_statements)) /\
  2 = number_or DEFAULT_PWM_CHIP
        (last_argument "p" [o "p" "2"; o "c" "0x1"]).
Proof.
  assert (H : In (Ev_pwm_open (api := api 0 0) 2 1 1 0)
                 (out (run (api := api 0 0) [o "p" "2"; o "c" "0x1"] heap []
                         all_statements)))
    by in_out.
  split; [exact H | ].
  exact (proj1 (open_arguments (api := api 0 0) [o "p" "2"; o "c" "0x1"]
                  heap [] all_statements 2 1 1 0 H)).
Defined.

Lemma execute_configuration_witness :
  In (Ev_pwm_execute (api := api 0 0) (0, 0)
        {| Pwm.script := Some "fdu"%string;
           default_frequency_hz := 2000;
           default_duration_ms := 250;
           default_duty_val := 2147483698;
           stop_flag := addr_exit_flag |} 0)
     (out (run (api := api 0 0) [o "f" "2000"] heap [] all_statements)) /\
  2000 = number_or DEFAULT_PWM_FREQUENCY_HZ
           (last_argument "f" [o "f" "2000"]).
Proof.
  assert (H : In (Ev_pwm_execute (api := api 0 0) (0, 0)
                    {| Pwm.script := Some "fdu"%string;
                       default_frequency_hz := 2000;
                       default_duration_ms := 250;
                       default_duty_val := 2147483698;
                       stop_flag := addr_exit_flag |} 0)
                 (out (run (api := api 0 0) [o "f" "2000"] heap []
                         all_statements)))
    by in_out.
  split; [exact H | ].
  exact (proj1 (execute_configuration (api := api 0 0) [o "f" "2000"] heap
                  [] all_statements _ _ _ H)).
Defined.

End MoreRuns.
